(** * Krishitej Agrosmartapp: the App component as an event-driven state machine

    A shallow embedding of [src/App.tsx].  The React component is modelled by
    its hook state ([useState] cells and the [useRef] cell), the browser
    runtime around it (clock, timer table, promises in flight, console) and
    one transition per thing the event loop can deliver: a DOM event, the
    passing of time, or the settling of a promise.  Every handler is written
    in a small state-and-exception monad so that [try]/[catch]/[finally] read
    as they do in the source. *)

From Stdlib Require Import NArith ZArith List String Ascii Bool Arith Lia.
Import ListNotations.

Set Implicit Arguments.

(** ** JavaScript strings

    A JS string is a sequence of UTF-16 code units; [length] counts code
    units and [trim] strips ECMAScript WhiteSpace and LineTerminator code
    points from both ends. *)

Module JsString.

Definition t := list N.

Definition of_string (s : string) : t :=
  map N_of_ascii (list_ascii_of_string s).

Definition eq_dec : forall a b : t, {a = b} + {a <> b} :=
  list_eq_dec N.eq_dec.

Definition eqb (a b : t) : bool := if eq_dec a b then true else false.

(** WhiteSpace: TAB, VT, FF, SP, NBSP, ZWNBSP and category Zs;
    LineTerminator: LF, CR, LS, PS. *)
Definition isWhiteSpace (c : N) : bool :=
  ((c =? 0x0009) || (c =? 0x000A) || (c =? 0x000B) || (c =? 0x000C)
   || (c =? 0x000D) || (c =? 0x0020) || (c =? 0x00A0) || (c =? 0x1680)
   || ((0x2000 <=? c) && (c <=? 0x200A))
   || (c =? 0x2028) || (c =? 0x2029) || (c =? 0x202F) || (c =? 0x205F)
   || (c =? 0x3000) || (c =? 0xFEFF))%N.

Fixpoint trimStart (s : t) : t :=
  match s with
  | [] => []
  | c :: s' => if isWhiteSpace c then trimStart s' else s
  end.

Definition trimEnd (s : t) : t := rev (trimStart (rev s)).

Definition trim (s : t) : t := trimEnd (trimStart s).

(** [s.split(sep)] for a one-code-unit separator. *)
Fixpoint split (sep : N) (s : t) : list t :=
  match s with
  | [] => [[]]
  | c :: s' =>
      if (c =? sep)%N then [] :: split sep s'
      else match split sep s' with
           | [] => [[c]]
           | p :: ps => (c :: p) :: ps
           end
  end.

End JsString.

Definition jsstring : Type := JsString.t.
Definition js : string -> jsstring := JsString.of_string.

(** ** Data model *)

(** JS numbers.  App.tsx stores and forwards the numeric fields of a weather
    record and never computes with them. *)
Definition number : Type := Z.

(** [types.ts], interface WeatherData. *)
Record Current := { temperature : number; rainfall : number }.
Record Forecast := { maxTemp : number; minTemp : number; forecast_rainfall : number }.
Record WeatherData := { soilType : jsstring; current : Current; forecast : Forecast }.

Inductive SoilCondition := good | low.

(** The browser's File object, opaque to the component. *)
Record File := { file_name : jsstring }.

(** Whatever a rejected promise or a [throw] carries: an instance of Error
    with its [message], or any other value (a string, a plain object, the
    ProgressEvent of a FileReader), with its own [message] property when it
    has a string one. *)
Inductive Thrown :=
| ErrorInstance (message : jsstring)
| NonError (message : option jsstring).

(** Outcome of a settled promise. *)
Inductive Settled (A : Type) :=
| Fulfilled (value : A)
| Rejected (reason : Thrown).
Arguments Fulfilled {A} value.
Arguments Rejected {A} reason.

(** The [useState] cells of App and the [useRef] cell. *)
Record App := {
  language : jsstring;
  locationText : jsstring;
  imageFile : option File;
  result : option jsstring;
  isLoading : bool;
  weatherData : option WeatherData;
  isFetchingWeather : bool;
  soilCondition : SoilCondition;
  debounceTimeoutRef : option N
}.

(** A timer registered by [window.setTimeout].  The only callback the
    component ever registers is the lookup closure of the effect, so a timer
    is determined by its handle, its due time and the [locationText] the
    closure captured. *)
Record Timer := {
  timer_id : N;
  timer_due : N;
  timer_locationText : jsstring
}.

(** A call [fetchLocationData(locationText)] made by the timer callback. *)
Record LookupRequest := {
  lookup_id : N;
  lookup_timer : N;
  lookup_time : N;
  lookup_locationText : jsstring
}.

(** A running invocation of [handleGetCropAdvice], suspended at its [await];
    the fields are the arguments of [generateCropAdvice], and [advice_language]
    also fixes the [t] the closure captured. *)
Record AdviceRequest := {
  advice_id : N;
  advice_language : jsstring;
  advice_locationText : jsstring;
  advice_weatherData : WeatherData;
  advice_soilCondition : SoilCondition
}.

(** A running invocation of [handleImageAnalysis]: suspended either at
    [await fileToBase64(imageFile)] or at [await generatePhotoAnalysis(...)]. *)
Inductive PhotoStage :=
| ReadingFile
| Analyzing (imageBase64 : option jsstring).

Record PhotoJob := {
  photo_id : N;
  photo_file : File;
  photo_language : jsstring;
  photo_locationText : jsstring;
  photo_stage : PhotoStage
}.

(** Modelled from the spec: the hook [useVoiceInteraction] is not part of the
    sources.  Section 6 gives its interface: [startSession(language,
    locationText)], [stopSession()], an asynchronous callback that delivers
    the final response string, the flags [isConnecting] and [isSessionActive]
    and an error channel. *)
Record VoiceHook := {
  isSessionActive : bool;
  isConnecting : bool;
  voiceError : option jsstring;
  voice_sessions : list (jsstring * jsstring)
}.

(** The runtime around the component. *)
Record Runtime := {
  now : N;
  nextTimerId : N;
  timers : list Timer;
  nextRequestId : N;
  lookupLog : list LookupRequest;
  lookupsInFlight : list LookupRequest;
  adviceInFlight : list AdviceRequest;
  photoInFlight : list PhotoJob;
  console : list Thrown;
  uncaught : list Thrown
}.

Record World := {
  app : App;
  voice : VoiceHook;
  rt : Runtime
}.

(** ** A state-and-exception monad for handler bodies *)

Inductive Completion (A : Type) :=
| Normal (a : A)
| Abrupt (e : Thrown).
Arguments Normal {A} a.
Arguments Abrupt {A} e.

Definition M (A : Type) : Type := World -> Completion A * World.

Definition ret {A} (a : A) : M A := fun w => (Normal a, w).

Definition bind {A B} (m : M A) (k : A -> M B) : M B :=
  fun w =>
    match m w with
    | (Normal a, w') => k a w'
    | (Abrupt e, w') => (Abrupt e, w')
    end.

Definition throw {A} (e : Thrown) : M A := fun w => (Abrupt e, w).

Definition gets {A} (f : World -> A) : M A := fun w => (Normal (f w), w).

Definition modify (f : World -> World) : M unit := fun w => (Normal tt, f w).

(** [try { body } catch (error) { handler } finally { fin }] *)
Definition tryCatchFinally {A} (body : M A) (handler : Thrown -> M A) (fin : M unit) : M A :=
  fun w =>
    let '(c, w1) :=
      match body w with
      | (Normal a, w1) => (Normal a, w1)
      | (Abrupt e, w1) => handler e w1
      end in
    match fin w1 with
    | (Normal _, w2) => (c, w2)
    | (Abrupt e, w2) => (Abrupt e, w2)
    end.

(** [await p] once [p] has settled. *)
Definition await {A} (p : Settled A) : M A :=
  match p with
  | Fulfilled v => ret v
  | Rejected e => throw e
  end.

Declare Scope M_scope.
Delimit Scope M_scope with M.
Notation "x <- m ;; k" := (bind m (fun x => k))
  (at level 61, m at next level, right associativity) : M_scope.
Notation "m ;; k" := (bind m (fun _ => k))
  (at level 61, right associativity) : M_scope.
Open Scope M_scope.

(** Updates of one component of the world. *)
Definition with_rt (f : Runtime -> Runtime) (w : World) : World :=
  {| app := app w; voice := voice w; rt := f (rt w) |}.

Definition with_app (f : App -> App) (w : World) : World :=
  {| app := f (app w); voice := voice w; rt := rt w |}.

Definition with_voice (f : VoiceHook -> VoiceHook) (w : World) : World :=
  {| app := app w; voice := f (voice w); rt := rt w |}.

Definition report_uncaught (e : Thrown) (r : Runtime) : Runtime :=
  {| now := now r; nextTimerId := nextTimerId r; timers := timers r;
     nextRequestId := nextRequestId r; lookupLog := lookupLog r;
     lookupsInFlight := lookupsInFlight r; adviceInFlight := adviceInFlight r;
     photoInFlight := photoInFlight r; console := console r;
     uncaught := uncaught r ++ [e] |}.

(** A handler run to completion by the event loop; an exception that leaves
    it is reported as uncaught. *)
Definition run_task (m : M unit) (w : World) : World :=
  match m w with
  | (Normal _, w') => w'
  | (Abrupt e, w') => with_rt (report_uncaught e) w'
  end.

(** ** State setters returned by [useState] *)

Definition setLanguage (v : jsstring) : M unit :=
  modify (with_app (fun a =>
    {| language := v; locationText := locationText a; imageFile := imageFile a;
       result := result a; isLoading := isLoading a; weatherData := weatherData a;
       isFetchingWeather := isFetchingWeather a; soilCondition := soilCondition a;
       debounceTimeoutRef := debounceTimeoutRef a |})).

Definition setLocationText (v : jsstring) : M unit :=
  modify (with_app (fun a =>
    {| language := language a; locationText := v; imageFile := imageFile a;
       result := result a; isLoading := isLoading a; weatherData := weatherData a;
       isFetchingWeather := isFetchingWeather a; soilCondition := soilCondition a;
       debounceTimeoutRef := debounceTimeoutRef a |})).

Definition setImageFile (v : option File) : M unit :=
  modify (with_app (fun a =>
    {| language := language a; locationText := locationText a; imageFile := v;
       result := result a; isLoading := isLoading a; weatherData := weatherData a;
       isFetchingWeather := isFetchingWeather a; soilCondition := soilCondition a;
       debounceTimeoutRef := debounceTimeoutRef a |})).

Definition setResult (v : option jsstring) : M unit :=
  modify (with_app (fun a =>
    {| language := language a; locationText := locationText a; imageFile := imageFile a;
       result := v; isLoading := isLoading a; weatherData := weatherData a;
       isFetchingWeather := isFetchingWeather a; soilCondition := soilCondition a;
       debounceTimeoutRef := debounceTimeoutRef a |})).

Definition setIsLoading (v : bool) : M unit :=
  modify (with_app (fun a =>
    {| language := language a; locationText := locationText a; imageFile := imageFile a;
       result := result a; isLoading := v; weatherData := weatherData a;
       isFetchingWeather := isFetchingWeather a; soilCondition := soilCondition a;
       debounceTimeoutRef := debounceTimeoutRef a |})).

Definition setWeatherData (v : option WeatherData) : M unit :=
  modify (with_app (fun a =>
    {| language := language a; locationText := locationText a; imageFile := imageFile a;
       result := result a; isLoading := isLoading a; weatherData := v;
       isFetchingWeather := isFetchingWeather a; soilCondition := soilCondition a;
       debounceTimeoutRef := debounceTimeoutRef a |})).

Definition setIsFetchingWeather (v : bool) : M unit :=
  modify (with_app (fun a =>
    {| language := language a; locationText := locationText a; imageFile := imageFile a;
       result := result a; isLoading := isLoading a; weatherData := weatherData a;
       isFetchingWeather := v; soilCondition := soilCondition a;
       debounceTimeoutRef := debounceTimeoutRef a |})).

Definition setSoilCondition (v : SoilCondition) : M unit :=
  modify (with_app (fun a =>
    {| language := language a; locationText := locationText a; imageFile := imageFile a;
       result := result a; isLoading := isLoading a; weatherData := weatherData a;
       isFetchingWeather := isFetchingWeather a; soilCondition := v;
       debounceTimeoutRef := debounceTimeoutRef a |})).

(** [debounceTimeoutRef.current = v] *)
Definition set_debounceTimeoutRef (v : option N) : M unit :=
  modify (with_app (fun a =>
    {| language := language a; locationText := locationText a; imageFile := imageFile a;
       result := result a; isLoading := isLoading a; weatherData := weatherData a;
       isFetchingWeather := isFetchingWeather a; soilCondition := soilCondition a;
       debounceTimeoutRef := v |})).

(** ** Runtime services

    The timer table of the browser, and the services of
    [services/geminiService], which are not part of the sources: a call only
    registers a pending promise, and the event that settles the promise
    brings its outcome. *)

(** [window.setTimeout(callback, delay)]: registers the timer and returns its
    handle.  Handles are positive and never reused. *)
Definition setTimeout (captured : jsstring) (delay : N) : M N :=
  fun w =>
    let r := rt w in
    let id := nextTimerId r in
    (Normal id,
     with_rt (fun r =>
       {| now := now r; nextTimerId := id + 1;
          timers := timers r ++ [{| timer_id := id; timer_due := now r + delay;
                                    timer_locationText := captured |}];
          nextRequestId := nextRequestId r; lookupLog := lookupLog r;
          lookupsInFlight := lookupsInFlight r; adviceInFlight := adviceInFlight r;
          photoInFlight := photoInFlight r; console := console r;
          uncaught := uncaught r |}) w).

(** [clearTimeout(id)]: drops the timer if it is still pending, else nothing. *)
Definition clearTimeout (id : N) : M unit :=
  modify (with_rt (fun r =>
    {| now := now r; nextTimerId := nextTimerId r;
       timers := filter (fun tm => negb (timer_id tm =? id)%N) (timers r);
       nextRequestId := nextRequestId r; lookupLog := lookupLog r;
       lookupsInFlight := lookupsInFlight r; adviceInFlight := adviceInFlight r;
       photoInFlight := photoInFlight r; console := console r;
       uncaught := uncaught r |})).

(** [fetchLocationData(locationText)]: the call is logged and its promise is
    pending.  [timer] records which timer's callback made the call. *)
Definition fetchLocationData (timer : N) (text : jsstring) : M unit :=
  modify (with_rt (fun r =>
    let req := {| lookup_id := nextRequestId r; lookup_timer := timer;
                  lookup_time := now r; lookup_locationText := text |} in
    {| now := now r; nextTimerId := nextTimerId r; timers := timers r;
       nextRequestId := nextRequestId r + 1; lookupLog := lookupLog r ++ [req];
       lookupsInFlight := lookupsInFlight r ++ [req];
       adviceInFlight := adviceInFlight r; photoInFlight := photoInFlight r;
       console := console r; uncaught := uncaught r |})).

(** [generateCropAdvice(language, locationText, weatherData, soilCondition)] *)
Definition generateCropAdvice (lang text : jsstring) (wd : WeatherData)
    (soil : SoilCondition) : M unit :=
  modify (with_rt (fun r =>
    let req := {| advice_id := nextRequestId r; advice_language := lang;
                  advice_locationText := text; advice_weatherData := wd;
                  advice_soilCondition := soil |} in
    {| now := now r; nextTimerId := nextTimerId r; timers := timers r;
       nextRequestId := nextRequestId r + 1; lookupLog := lookupLog r;
       lookupsInFlight := lookupsInFlight r;
       adviceInFlight := adviceInFlight r ++ [req];
       photoInFlight := photoInFlight r;
       console := console r; uncaught := uncaught r |})).

(** [fileToBase64(file)]: a FileReader is started on the file; the running
    invocation of [handleImageAnalysis] waits for it. *)
Definition fileToBase64 (file : File) (lang text : jsstring) : M unit :=
  modify (with_rt (fun r =>
    let job := {| photo_id := nextRequestId r; photo_file := file;
                  photo_language := lang; photo_locationText := text;
                  photo_stage := ReadingFile |} in
    {| now := now r; nextTimerId := nextTimerId r; timers := timers r;
       nextRequestId := nextRequestId r + 1; lookupLog := lookupLog r;
       lookupsInFlight := lookupsInFlight r;
       adviceInFlight := adviceInFlight r;
       photoInFlight := photoInFlight r ++ [job];
       console := console r; uncaught := uncaught r |})).

(** [generatePhotoAnalysis(imageBase64, language, locationText)], called by the
    invocation [job] once its file is read. *)
Definition generatePhotoAnalysis (job : PhotoJob) (imageBase64 : option jsstring) : M unit :=
  modify (with_rt (fun r =>
    let job' := {| photo_id := photo_id job; photo_file := photo_file job;
                   photo_language := photo_language job;
                   photo_locationText := photo_locationText job;
                   photo_stage := Analyzing imageBase64 |} in
    {| now := now r; nextTimerId := nextTimerId r; timers := timers r;
       nextRequestId := nextRequestId r; lookupLog := lookupLog r;
       lookupsInFlight := lookupsInFlight r;
       adviceInFlight := adviceInFlight r;
       photoInFlight := photoInFlight r ++ [job'];
       console := console r; uncaught := uncaught r |})).

(** [console.error(error)] *)
Definition console_error (e : Thrown) : M unit :=
  modify (with_rt (fun r =>
    {| now := now r; nextTimerId := nextTimerId r; timers := timers r;
       nextRequestId := nextRequestId r; lookupLog := lookupLog r;
       lookupsInFlight := lookupsInFlight r; adviceInFlight := adviceInFlight r;
       photoInFlight := photoInFlight r; console := console r ++ [e];
       uncaught := uncaught r |})).

(** The clock moves (forward only). *)
Definition advanceClock (t : N) : M unit :=
  modify (with_rt (fun r =>
    {| now := N.max (now r) t; nextTimerId := nextTimerId r; timers := timers r;
       nextRequestId := nextRequestId r; lookupLog := lookupLog r;
       lookupsInFlight := lookupsInFlight r; adviceInFlight := adviceInFlight r;
       photoInFlight := photoInFlight r; console := console r;
       uncaught := uncaught r |})).

(** Bookkeeping of settled promises and fired timers. *)
Definition set_timers (l : list Timer) : M unit :=
  modify (with_rt (fun r =>
    {| now := now r; nextTimerId := nextTimerId r; timers := l;
       nextRequestId := nextRequestId r; lookupLog := lookupLog r;
       lookupsInFlight := lookupsInFlight r; adviceInFlight := adviceInFlight r;
       photoInFlight := photoInFlight r; console := console r;
       uncaught := uncaught r |})).

Definition set_lookupsInFlight (l : list LookupRequest) : M unit :=
  modify (with_rt (fun r =>
    {| now := now r; nextTimerId := nextTimerId r; timers := timers r;
       nextRequestId := nextRequestId r; lookupLog := lookupLog r;
       lookupsInFlight := l; adviceInFlight := adviceInFlight r;
       photoInFlight := photoInFlight r; console := console r;
       uncaught := uncaught r |})).

Definition set_adviceInFlight (l : list AdviceRequest) : M unit :=
  modify (with_rt (fun r =>
    {| now := now r; nextTimerId := nextTimerId r; timers := timers r;
       nextRequestId := nextRequestId r; lookupLog := lookupLog r;
       lookupsInFlight := lookupsInFlight r; adviceInFlight := l;
       photoInFlight := photoInFlight r; console := console r;
       uncaught := uncaught r |})).

Definition set_photoInFlight (l : list PhotoJob) : M unit :=
  modify (with_rt (fun r =>
    {| now := now r; nextTimerId := nextTimerId r; timers := timers r;
       nextRequestId := nextRequestId r; lookupLog := lookupLog r;
       lookupsInFlight := lookupsInFlight r; adviceInFlight := adviceInFlight r;
       photoInFlight := l; console := console r;
       uncaught := uncaught r |})).

(** ** The component *)

(** 1.5-second debounce delay, in milliseconds. *)
Definition debounceDelay : N := 1500.

(** [if (debounceTimeoutRef.current)]: a handle is truthy unless it is
    [null] or [0]. *)
Definition truthy (ref : option N) : bool :=
  match ref with
  | Some id => negb (id =? 0)%N
  | None => false
  end.

(** The arrow function given to [setTimeout], up to its [await]: it calls
    [fetchLocationData] with the [locationText] it captured. *)
Definition lookupCallback (tm : Timer) : M unit :=
  fetchLocationData (timer_id tm) (timer_locationText tm).

(** The rest of that function, run when the promise has settled. *)
Definition lookupCallback_resume (p : Settled WeatherData) : M unit :=
  tryCatchFinally
    (data <- await p ;;
     setWeatherData (Some data))
    (fun error => console_error error)
    (setIsFetchingWeather false).

(** The effect of App.tsx, lines 27-49, run after every render in which
    [locationText] has changed (the spec's [onQueryChange]). *)
Definition onQueryChange : M unit :=
  ref <- gets (fun w => debounceTimeoutRef (app w)) ;;
  (if truthy ref
   then match ref with Some id => clearTimeout id | None => ret tt end
   else ret tt) ;;
  text <- gets (fun w => locationText (app w)) ;;
  if (3 <? List.length (JsString.trim text))%nat then
    setIsFetchingWeather true ;;
    setWeatherData None ;;
    id <- setTimeout text debounceDelay ;;
    set_debounceTimeoutRef (Some id)
  else
    setWeatherData None ;;
    setIsFetchingWeather false.

(** [handleFinalVoiceResponse] *)
Definition handleFinalVoiceResponse (aiResponse : jsstring) : M unit :=
  setResult (Some aiResponse) ;;
  setIsLoading false.

(** Modelled from the spec: [startSession] and [stopSession] of the missing
    hook [useVoiceInteraction].  Starting a session raises [isConnecting]
    until the connection is made; stopping lowers both flags. *)
Definition startSession (lang text : jsstring) : M unit :=
  modify (with_voice (fun v =>
    {| isSessionActive := false; isConnecting := true; voiceError := None;
       voice_sessions := voice_sessions v ++ [(lang, text)] |})).

Definition stopSession : M unit :=
  modify (with_voice (fun v =>
    {| isSessionActive := false; isConnecting := false;
       voiceError := voiceError v; voice_sessions := voice_sessions v |})).

(** [handleToggleVoice] *)
Definition handleToggleVoice : M unit :=
  active <- gets (fun w => isSessionActive (voice w)) ;;
  if active then stopSession
  else
    setResult None ;;
    setIsLoading true ;;
    lang <- gets (fun w => language (app w)) ;;
    text <- gets (fun w => locationText (app w)) ;;
    startSession lang text.

(** [fileToBase64]'s [reader.onload]: the promise resolves with
    [reader.result.split(',')[1]]. *)
Definition base64OfDataUrl (dataUrl : jsstring) : option jsstring :=
  nth_error (JsString.split 44 dataUrl) 1.

Section Translations.

(** [useTranslations(language).t]: the hook is not part of the sources; by
    section 6 of the spec [t(key)] is a pure function of the selected
    language code.  The first argument is the language, the second the key. *)
Variable translate : jsstring -> jsstring -> jsstring.

(** The text a failed one-shot action leaves in the result slot:
    [`${t(label)} \n${t('details')}: ${errorMessage}`] with
    [errorMessage = error instanceof Error ? error.message : t('unknownError')]. *)
Definition errorMessageOf (lang : jsstring) (error : Thrown) : jsstring :=
  match error with
  | ErrorInstance message => message
  | NonError _ => translate lang (js "unknownError")
  end.

Definition failureText (lang label : jsstring) (error : Thrown) : jsstring :=
  translate lang label ++ js " " ++ [10%N] ++ translate lang (js "details")
    ++ js ": " ++ errorMessageOf lang error.

(** [handleImageAnalysis], up to its first [await]. *)
Definition handleImageAnalysis : M unit :=
  file <- gets (fun w => imageFile (app w)) ;;
  match file with
  | None => ret tt
  | Some f =>
      setResult None ;;
      setIsLoading true ;;
      lang <- gets (fun w => language (app w)) ;;
      text <- gets (fun w => locationText (app w)) ;;
      fileToBase64 f lang text
  end.

(** The end of [handleImageAnalysis]: the [try] block finishes with the
    outcome [p] of the promise it was waiting for, then [catch] and
    [finally]. *)
Definition handleImageAnalysis_finish (job : PhotoJob) (p : Settled jsstring) : M unit :=
  tryCatchFinally
    (response <- await p ;;
     setResult (Some response))
    (fun error =>
       setResult (Some (failureText (photo_language job) (js "photoError") error)))
    (setIsLoading false).

(** [handleImageAnalysis] when [fileToBase64] has settled: on success the
    analysis request is sent and the function waits again. *)
Definition handleImageAnalysis_resume (job : PhotoJob) (p : Settled (option jsstring)) : M unit :=
  match p with
  | Fulfilled imageBase64 => generatePhotoAnalysis job imageBase64
  | Rejected error => handleImageAnalysis_finish job (Rejected error)
  end.

(** [handleGetCropAdvice], up to its [await]. *)
Definition handleGetCropAdvice : M unit :=
  wd <- gets (fun w => weatherData (app w)) ;;
  match wd with
  | None => ret tt
  | Some data =>
      setResult None ;;
      setIsLoading true ;;
      lang <- gets (fun w => language (app w)) ;;
      text <- gets (fun w => locationText (app w)) ;;
      soil <- gets (fun w => soilCondition (app w)) ;;
      generateCropAdvice lang text data soil
  end.

(** The rest of [handleGetCropAdvice], run when the promise has settled. *)
Definition handleGetCropAdvice_resume (req : AdviceRequest) (p : Settled jsstring) : M unit :=
  tryCatchFinally
    (response <- await p ;;
     setResult (Some response))
    (fun error =>
       setResult (Some (failureText (advice_language req) (js "adviceError") error)))
    (setIsLoading false).

(** ** The rendered controls *)

(** The advice button is rendered under [weatherData &&] and carries
    [disabled={isLoading}]; a click reaches [onClick] only on an enabled,
    rendered button. *)
Definition adviceButtonEnabled (w : World) : bool :=
  match weatherData (app w) with
  | Some _ => negb (isLoading (app w))
  | None => false
  end.

(** The analysis button: rendered under [imageFile &&], [disabled={isLoading}]. *)
Definition photoButtonEnabled (w : World) : bool :=
  match imageFile (app w) with
  | Some _ => negb (isLoading (app w))
  | None => false
  end.

(** The chatbot button: [disabled={isConnecting}]. *)
Definition voiceButtonEnabled (w : World) : bool :=
  negb (isConnecting (voice w)).

(** The soil select is part of the block rendered under [weatherData &&]. *)
Definition soilSelectRendered (w : World) : bool :=
  match weatherData (app w) with
  | Some _ => true
  | None => false
  end.

(** ** The event loop *)

Inductive Event :=
| LanguageChange (code : jsstring)
| LocationInput (value : jsstring)
| SoilChange (value : SoilCondition)
| FileSelect (file : option File)
| ClickAdvice
| ClickAnalyze
| ClickVoice
| Elapse (dt : N)
| LookupSettled (id : N) (p : Settled WeatherData)
| AdviceSettled (id : N) (p : Settled jsstring)
| FileReaderLoad (id : N) (dataUrl : jsstring)
| FileReaderError (id : N)
| AnalysisSettled (id : N) (p : Settled jsstring)
| VoiceConnected
| VoiceFinalResponse (aiResponse : jsstring)
| VoiceFailed (message : jsstring).

(** A timer fires at its due time. *)
Definition fireTimer (tm : Timer) : M unit :=
  advanceClock (timer_due tm) ;;
  lookupCallback tm.

Definition isDue (until : N) (tm : Timer) : bool := (timer_due tm <=? until)%N.

(** [dt] milliseconds pass: every timer due by then fires, in the order of
    registration, and leaves the timer table. *)
Definition elapse (dt : N) (w : World) : World :=
  let until := (now (rt w) + dt)%N in
  let due := filter (isDue until) (timers (rt w)) in
  let w1 := run_task (set_timers (filter (fun tm => negb (isDue until tm)) (timers (rt w)))) w in
  let w2 := fold_left (fun w tm => run_task (fireTimer tm) w) due w1 in
  run_task (advanceClock until) w2.

(** The query becomes [value] and the effect runs on it: the spec's
    [onQueryChange(newValue)]. *)
Definition queryChange (value : jsstring) (w : World) : World :=
  run_task (setLocationText value ;; onQueryChange) w.

(** [onChange] of the location field: [setLocationText(e.target.value)], then
    React re-renders and runs the effect; it does neither when the new state
    equals the old one. *)
Definition locationInput (value : jsstring) (w : World) : World :=
  if JsString.eqb value (locationText (app w)) then w
  else queryChange value w.

(** The promise of the lookup request [id] settles with outcome [p]: the
    callback that was waiting for it resumes.  Nothing happens when no such
    request is in flight. *)
Definition lookupSettled (id : N) (p : Settled WeatherData) (w : World) : World :=
  match find (fun r => (lookup_id r =? id)%N) (lookupsInFlight (rt w)) with
  | None => w
  | Some _ =>
      run_task
        (set_lookupsInFlight
           (filter (fun r => negb (lookup_id r =? id)%N) (lookupsInFlight (rt w))) ;;
         lookupCallback_resume p) w
  end.

(** The same for the invocation [id] of [handleGetCropAdvice]. *)
Definition adviceSettled (id : N) (p : Settled jsstring) (w : World) : World :=
  match find (fun r => (advice_id r =? id)%N) (adviceInFlight (rt w)) with
  | None => w
  | Some req =>
      run_task
        (set_adviceInFlight
           (filter (fun r => negb (advice_id r =? id)%N) (adviceInFlight (rt w))) ;;
         handleGetCropAdvice_resume req p) w
  end.

Definition isReading (j : PhotoJob) : bool :=
  match photo_stage j with ReadingFile => true | Analyzing _ => false end.

(** The same for the invocation [id] of [handleImageAnalysis], waiting for
    the file ([reading]) or for the analysis; [k] is what it does next. *)
Definition photoSettled (reading : bool) (id : N)
    (k : PhotoJob -> M unit) (w : World) : World :=
  match find (fun j => (photo_id j =? id)%N && Bool.eqb (isReading j) reading)
             (photoInFlight (rt w)) with
  | None => w
  | Some job =>
      run_task
        (set_photoInFlight
           (filter (fun j => negb (photo_id j =? id)%N) (photoInFlight (rt w))) ;;
         k job) w
  end.

(** Modelled from the spec: what the missing hook [useVoiceInteraction] does
    between the calls the component makes.  A session that is connecting
    becomes active; an active session delivers final responses through the
    callback it was given ([handleFinalVoiceResponse]); a failure ends the
    session and fills the error channel. *)
Definition voiceConnected (w : World) : World :=
  if isConnecting (voice w) then
    with_voice (fun v =>
      {| isSessionActive := true; isConnecting := false;
         voiceError := voiceError v; voice_sessions := voice_sessions v |}) w
  else w.

Definition voiceFinalResponse (aiResponse : jsstring) (w : World) : World :=
  if isSessionActive (voice w)
  then run_task (handleFinalVoiceResponse aiResponse) w
  else w.

Definition voiceFailed (message : jsstring) (w : World) : World :=
  with_voice (fun v =>
    {| isSessionActive := false; isConnecting := false;
       voiceError := Some message; voice_sessions := voice_sessions v |}) w.

(** One turn of the event loop.  A click only reaches a handler through a
    control that is rendered and enabled; [onFileSelect={setImageFile}] is
    the whole interface to the ImageUploader component. *)
Definition step (w : World) (ev : Event) : World :=
  match ev with
  | LanguageChange code => run_task (setLanguage code) w
  | LocationInput value => locationInput value w
  | SoilChange value =>
      if soilSelectRendered w then run_task (setSoilCondition value) w else w
  | FileSelect file => run_task (setImageFile file) w
  | ClickAdvice =>
      if adviceButtonEnabled w then run_task handleGetCropAdvice w else w
  | ClickAnalyze =>
      if photoButtonEnabled w then run_task handleImageAnalysis w else w
  | ClickVoice =>
      if voiceButtonEnabled w then run_task handleToggleVoice w else w
  | Elapse dt => elapse dt w
  | LookupSettled id p => lookupSettled id p w
  | AdviceSettled id p => adviceSettled id p w
  | FileReaderLoad id dataUrl =>
      photoSettled true id
        (fun job => handleImageAnalysis_resume job (Fulfilled (base64OfDataUrl dataUrl))) w
  | FileReaderError id =>
      photoSettled true id
        (fun job => handleImageAnalysis_resume job (Rejected (NonError None))) w
  | AnalysisSettled id p =>
      photoSettled false id (fun job => handleImageAnalysis_finish job p) w
  | VoiceConnected => voiceConnected w
  | VoiceFinalResponse aiResponse => voiceFinalResponse aiResponse w
  | VoiceFailed message => voiceFailed message w
  end.

Definition run (w : World) (evs : list Event) : World := fold_left step evs w.

(** The first render: every [useState] at its initial value, nothing
    scheduled, no session. *)
Definition firstRender : World :=
  {| app := {| language := js "en"; locationText := []; imageFile := None;
               result := None; isLoading := false; weatherData := None;
               isFetchingWeather := false; soilCondition := good;
               debounceTimeoutRef := None |};
     voice := {| isSessionActive := false; isConnecting := false;
                 voiceError := None; voice_sessions := [] |};
     rt := {| now := 0; nextTimerId := 1; timers := []; nextRequestId := 1;
              lookupLog := []; lookupsInFlight := []; adviceInFlight := [];
              photoInFlight := []; console := []; uncaught := [] |} |}.

(** The mounted component: the effect has run once on the first render. *)
Definition mounted : World := run_task onQueryChange firstRender.

Definition reachable (w : World) : Prop := exists evs, w = run mounted evs.

(** Total time spent in a list of events, and the events other than a change
    of the location field. *)
Definition elapsed (evs : list Event) : N :=
  fold_right (fun ev acc => match ev with Elapse dt => dt + acc | _ => acc end)%N 0%N evs.

Definition isLocationInput (ev : Event) : bool :=
  match ev with LocationInput _ => true | _ => false end.

Definition isVoiceFinalResponse (ev : Event) : bool :=
  match ev with VoiceFinalResponse _ => true | _ => false end.

Definition quiet (evs : list Event) : Prop :=
  Forall (fun ev => isLocationInput ev = false) evs.

(** ** Invariants of the resolver *)

Record ResolverInv (w : World) : Prop := {
  inv_timer :
    timers (rt w) = [] \/
    exists tm, timers (rt w) = [tm]
      /\ debounceTimeoutRef (app w) = Some (timer_id tm)
      /\ timer_id tm <> 0%N
      /\ timer_locationText tm = locationText (app w)
      /\ (now (rt w) < timer_due tm)%N;
  inv_next_handle : nextTimerId (rt w) <> 0%N;
  inv_timer_fresh :
    forall tm, In tm (timers (rt w)) -> (timer_id tm < nextTimerId (rt w))%N;
  inv_log_fresh :
    forall r, In r (lookupLog (rt w)) -> (lookup_timer r < nextTimerId (rt w))%N;
  inv_log_fired :
    forall r tm, In r (lookupLog (rt w)) -> In tm (timers (rt w)) ->
      timer_id tm <> lookup_timer r;
  inv_inflight :
    incl (lookupsInFlight (rt w)) (lookupLog (rt w));
  inv_fetching :
    isFetchingWeather (app w) = true ->
    timers (rt w) <> [] \/
    exists r, In r (lookupsInFlight (rt w))
      /\ debounceTimeoutRef (app w) = Some (lookup_timer r)
      /\ lookup_locationText r = locationText (app w)
}.

(** What [clearTimeout] under [if (debounceTimeoutRef.current)] leaves of the
    timer table. *)
Definition clearedTimers (w : World) : list Timer :=
  match debounceTimeoutRef (app w) with
  | Some id =>
      if (id =? 0)%N then timers (rt w)
      else filter (fun tm => negb (timer_id tm =? id)%N) (timers (rt w))
  | None => timers (rt w)
  end.

(** The request a firing timer makes. *)
Definition requestOf (w : World) (tm : Timer) : LookupRequest :=
  {| lookup_id := nextRequestId (rt w); lookup_timer := timer_id tm;
     lookup_time := N.max (now (rt w)) (timer_due tm);
     lookup_locationText := timer_locationText tm |}.

(** The part of the world the resolver reads or writes. *)
Definition sameResolver (w w' : World) : Prop :=
  locationText (app w') = locationText (app w)
  /\ weatherData (app w') = weatherData (app w)
  /\ isFetchingWeather (app w') = isFetchingWeather (app w)
  /\ debounceTimeoutRef (app w') = debounceTimeoutRef (app w)
  /\ now (rt w') = now (rt w)
  /\ nextTimerId (rt w') = nextTimerId (rt w)
  /\ timers (rt w') = timers (rt w)
  /\ lookupLog (rt w') = lookupLog (rt w)
  /\ lookupsInFlight (rt w') = lookupsInFlight (rt w)
  /\ console (rt w') = console (rt w)
  /\ uncaught (rt w') = uncaught (rt w).

Definition isResolverEvent (ev : Event) : bool :=
  match ev with
  | LocationInput _ | Elapse _ | LookupSettled _ _ => true
  | _ => false
  end.

Definition isElapse (ev : Event) : bool :=
  match ev with Elapse _ => true | _ => false end.

(** No timer is due before [T]. *)
Definition noneDueBefore (T : N) (w : World) : Prop :=
  forall tm, In tm (timers (rt w)) -> (T <= timer_due tm)%N.

(** The handle [k] is spent: it was handed out, it is not pending, and no
    request was made by its callback. *)
Definition spentHandle (k : N) (w : World) : Prop :=
  (k < nextTimerId (rt w))%N
  /\ (forall tm, In tm (timers (rt w)) -> timer_id tm <> k)
  /\ (forall r, In r (lookupLog (rt w)) -> lookup_timer r <> k).

(** A single resolution on its way: scheduled with nothing else outstanding,
    or its request the only one in flight; the flag is up and the record is
    empty all along. *)
Definition settling (w : World) : Prop :=
  (lookupsInFlight (rt w) = []
   /\ (timers (rt w) <> [] ->
       isFetchingWeather (app w) = true /\ weatherData (app w) = None))
  \/
  (timers (rt w) = []
   /\ (exists r, lookupsInFlight (rt w) = [r])
   /\ isFetchingWeather (app w) = true /\ weatherData (app w) = None).

(** Invocations of the advice and analysis handlers that have not finished. *)
Definition oneShotsInFlight (w : World) : nat :=
  (List.length (adviceInFlight (rt w)) + List.length (photoInFlight (rt w)))%nat.

Definition oneShotInv (w : World) : Prop :=
  oneShotsInFlight w = 0%nat
  \/ (oneShotsInFlight w = 1%nat /\ isLoading (app w) = true).

(** [error.message] for a thrown value that has one. *)
Definition thrownMessage (error : Thrown) : option jsstring :=
  match error with
  | ErrorInstance message => Some message
  | NonError message => message
  end.

(** The state is that of a single resolution: it was reached from a state
    with no lookup outstanding by one change of the query and events that do
    not change the query again. *)
Definition soleResolution (w : World) : Prop :=
  exists w0 v evs,
    reachable w0 /\ lookupsInFlight (rt w0) = [] /\ quiet evs
    /\ w = run (queryChange v w0) evs.

Definition noVoiceResponse (evs : list Event) : Prop :=
  Forall (fun ev => isVoiceFinalResponse ev = false) evs.


(** ** Sample data *)

(** The payload of section 8 of the spec: soilType "loam", current {20, 5},
    forecast {28, 15, 2}. *)
Definition loam : WeatherData :=
  {| soilType := js "loam";
     current := {| temperature := 20%Z; rainfall := 5%Z |};
     forecast := {| maxTemp := 28%Z; minTemp := 15%Z; forecast_rainfall := 2%Z |} |}.

Definition clay : WeatherData :=
  {| soilType := js "clay";
     current := {| temperature := 31%Z; rainfall := 0%Z |};
     forecast := {| maxTemp := 35%Z; minTemp := 22%Z; forecast_rainfall := 1%Z |} |}.

(** A translation table for examples: the key in brackets, after the language. *)
Definition sampleTranslate (lang key : jsstring) : jsstring :=
  lang ++ js "[" ++ key ++ js "]".

Definition leaf : File := {| file_name := js "leaf.png" |}.

(** Two resolutions that overlap: the request for "Pune1" is still in flight
    when the query becomes "Mumbai" and its own request is made. *)
Definition overlappingLookups : list Event :=
  [LocationInput (js "Pune1"); Elapse 1500;
   LocationInput (js "Mumbai"); Elapse 1500].

(** The record of a superseded query on display while the timer of the
    current one is pending: the response for "Pune1" arrives after the query
    has become "Mumbai". *)
Definition recordShownTimerPending : list Event :=
  [LocationInput (js "Pune1"); Elapse 1500;
   LocationInput (js "Mumbai"); LookupSettled 1 (Fulfilled loam)].



(** ** Further invariants *)

(** What is on screen and what was asked for: the fetching notice and the
    weather panel exclude each other, timers and requests only exist for
    queries above the threshold, and nothing was ever thrown out of a
    handler. *)
Definition displayInv (w : World) : Prop :=
  (isFetchingWeather (app w) = true -> weatherData (app w) = None)
  /\ (forall tm, In tm (timers (rt w)) ->
        (3 < List.length (JsString.trim (timer_locationText tm)))%nat)
  /\ (forall r, In r (lookupLog (rt w)) ->
        (3 < List.length (JsString.trim (lookup_locationText r)))%nat)
  /\ uncaught (rt w) = [].

(** Identifiers of the promises in flight are below the next one to be
    handed out, and distinct within each kind. *)
Definition idsFresh (w : World) : Prop :=
  (forall r, In r (lookupsInFlight (rt w)) -> (lookup_id r < nextRequestId (rt w))%N)
  /\ (forall r, In r (adviceInFlight (rt w)) -> (advice_id r < nextRequestId (rt w))%N)
  /\ (forall j, In j (photoInFlight (rt w)) -> (photo_id j < nextRequestId (rt w))%N)
  /\ NoDup (map advice_id (adviceInFlight (rt w)))
  /\ NoDup (map photo_id (photoInFlight (rt w))).

(** The event settles the lookup request [id]. *)
Definition settlesLookup (id : N) (ev : Event) : bool :=
  match ev with
  | LookupSettled id' _ => (id' =? id)%N
  | _ => false
  end.

(** The event settles the invocation [id] of [handleGetCropAdvice]. *)
Definition settlesAdvice (id : N) (ev : Event) : bool :=
  match ev with
  | AdviceSettled id' _ => (id' =? id)%N
  | _ => false
  end.

(** The arguments [handleGetCropAdvice] passes to [generateCropAdvice] when
    the weather record is [data]. *)
Definition adviceRequestOf (w : World) (data : WeatherData) : AdviceRequest :=
  {| advice_id := nextRequestId (rt w);
     advice_language := language (app w);
     advice_locationText := locationText (app w);
     advice_weatherData := data;
     advice_soilCondition := soilCondition (app w) |}.

(** The invocation of [handleImageAnalysis] started on [file], at its two
    stages. *)
Definition photoJobOf (w : World) (file : File) (stage : PhotoStage) : PhotoJob :=
  {| photo_id := nextRequestId (rt w);
     photo_file := file;
     photo_language := language (app w);
     photo_locationText := locationText (app w);
     photo_stage := stage |}.

(** The parts of the world the one-shot actions and the voice session read
    or write. *)
Definition sameActions (w w' : World) : Prop :=
  language (app w') = language (app w)
  /\ imageFile (app w') = imageFile (app w)
  /\ result (app w') = result (app w)
  /\ isLoading (app w') = isLoading (app w)
  /\ soilCondition (app w') = soilCondition (app w)
  /\ adviceInFlight (rt w') = adviceInFlight (rt w)
  /\ photoInFlight (rt w') = photoInFlight (rt w)
  /\ voice w' = voice w.

(** The loading flag is up although neither an advice nor an analysis
    invocation is in flight. *)
Definition loadingWithoutOneShot (w : World) : Prop :=
  isLoading (app w) = true
  /\ adviceInFlight (rt w) = []
  /\ photoInFlight (rt w) = [].

(** ** Reasoning tools *)

Ltac unfold_monad :=
  unfold run_task, bind, ret, throw, gets, modify, tryCatchFinally, await in *.

Ltac unfold_ops :=
  unfold setLanguage, setLocationText, setImageFile, setResult, setIsLoading,
    setWeatherData, setIsFetchingWeather, setSoilCondition,
    set_debounceTimeoutRef, setTimeout, clearTimeout, fetchLocationData,
    generateCropAdvice, fileToBase64, generatePhotoAnalysis, console_error,
    advanceClock, set_timers, set_lookupsInFlight, set_adviceInFlight,
    set_photoInFlight, startSession, stopSession in *.

Ltac unfold_world := unfold with_app, with_rt, with_voice, report_uncaught in *.

Ltac run_handler := unfold_ops; unfold_monad; unfold_world; cbn in *.

Lemma mounted_eq : mounted = firstRender.
Proof. reflexivity. Qed.

Lemma run_app (w : World) (evs1 evs2 : list Event) :
  run w (evs1 ++ evs2) = run (run w evs1) evs2.
Proof. unfold run. apply fold_left_app. Qed.

Lemma run_snoc (w : World) (evs : list Event) (ev : Event) :
  run w (evs ++ [ev]) = step (run w evs) ev.
Proof. rewrite run_app. reflexivity. Qed.

Lemma reachable_step (w : World) (ev : Event) :
  reachable w -> reachable (step w ev).
Proof.
  intros [evs ->]. exists (evs ++ [ev]). symmetry. apply run_snoc.
Qed.

Lemma reachable_run (w : World) (evs : list Event) :
  reachable w -> reachable (run w evs).
Proof.
  revert w. induction evs as [|ev evs IH]; intros w Hw; cbn.
  - exact Hw.
  - apply IH. now apply reachable_step.
Qed.

(** Invariants are established by induction over the run. *)
Lemma reachable_ind (P : World -> Prop) :
  P mounted ->
  (forall w ev, reachable w -> P w -> P (step w ev)) ->
  forall w, reachable w -> P w.
Proof.
  intros Hinit Hstep w [evs ->].
  induction evs as [|ev evs IH] using rev_ind.
  - exact Hinit.
  - rewrite run_snoc. apply Hstep; [now exists evs | exact IH].
Qed.

Lemma mounted_inv : ResolverInv mounted.
Proof.
  rewrite mounted_eq. constructor; cbn; auto; try easy.
Qed.

Ltac hcbn := cbn -[Nat.ltb JsString.trim N.add N.max N.leb N.ltb N.eqb] in *.

Ltac break_world w :=
  let a := fresh "a" in let vo := fresh "vo" in let r := fresh "r" in
  destruct w as [a vo r]; destruct r; destruct a; destruct vo.

Lemma queryChange_long (v : jsstring) (w : World) :
  (3 < List.length (JsString.trim v))%nat ->
  queryChange v w =
  {| app := {| language := language (app w); locationText := v;
               imageFile := imageFile (app w); result := result (app w);
               isLoading := isLoading (app w); weatherData := None;
               isFetchingWeather := true; soilCondition := soilCondition (app w);
               debounceTimeoutRef := Some (nextTimerId (rt w)) |};
     voice := voice w;
     rt := {| now := now (rt w); nextTimerId := nextTimerId (rt w) + 1;
              timers := clearedTimers w ++
                [{| timer_id := nextTimerId (rt w);
                    timer_due := now (rt w) + debounceDelay;
                    timer_locationText := v |}];
              nextRequestId := nextRequestId (rt w);
              lookupLog := lookupLog (rt w);
              lookupsInFlight := lookupsInFlight (rt w);
              adviceInFlight := adviceInFlight (rt w);
              photoInFlight := photoInFlight (rt w);
              console := console (rt w); uncaught := uncaught (rt w) |} |}.
Proof.
  intros Hlen. apply Nat.ltb_lt in Hlen.
  unfold queryChange, onQueryChange, clearedTimers, truthy.
  unfold_ops; unfold_monad; unfold_world. hcbn.
  destruct (debounceTimeoutRef (app w)) as [id|]; hcbn.
  - destruct (id =? 0)%N; hcbn; rewrite Hlen; reflexivity.
  - rewrite Hlen. reflexivity.
Qed.

Lemma queryChange_short (v : jsstring) (w : World) :
  (List.length (JsString.trim v) <= 3)%nat ->
  queryChange v w =
  {| app := {| language := language (app w); locationText := v;
               imageFile := imageFile (app w); result := result (app w);
               isLoading := isLoading (app w); weatherData := None;
               isFetchingWeather := false; soilCondition := soilCondition (app w);
               debounceTimeoutRef := debounceTimeoutRef (app w) |};
     voice := voice w;
     rt := {| now := now (rt w); nextTimerId := nextTimerId (rt w);
              timers := clearedTimers w;
              nextRequestId := nextRequestId (rt w);
              lookupLog := lookupLog (rt w);
              lookupsInFlight := lookupsInFlight (rt w);
              adviceInFlight := adviceInFlight (rt w);
              photoInFlight := photoInFlight (rt w);
              console := console (rt w); uncaught := uncaught (rt w) |} |}.
Proof.
  intros Hlen. apply Nat.ltb_ge in Hlen.
  break_world w.
  unfold queryChange, onQueryChange, clearedTimers, truthy.
  unfold_ops; unfold_monad; unfold_world. hcbn.
  destruct debounceTimeoutRef0 as [id|]; hcbn.
  - destruct (id =? 0)%N; hcbn; rewrite Hlen; reflexivity.
  - rewrite Hlen. reflexivity.
Qed.

(** Under the invariant the effect's [clearTimeout] empties the timer table. *)
Lemma clearedTimers_inv (w : World) :
  ResolverInv w -> clearedTimers w = [].
Proof.
  intros Hinv. unfold clearedTimers.
  destruct (inv_timer Hinv) as [Ht | (tm & Ht & Href & Hid & _)]; rewrite Ht.
  - destruct (debounceTimeoutRef (app w)) as [id|]; [destruct (id =? 0)%N|]; reflexivity.
  - rewrite Href. apply N.eqb_neq in Hid. rewrite Hid. cbn.
    rewrite N.eqb_refl. reflexivity.
Qed.

Lemma elapse_idle (dt : N) (w : World) :
  timers (rt w) = [] ->
  elapse dt w =
  {| app := app w; voice := voice w;
     rt := {| now := N.max (now (rt w)) (now (rt w) + dt);
              nextTimerId := nextTimerId (rt w); timers := [];
              nextRequestId := nextRequestId (rt w);
              lookupLog := lookupLog (rt w);
              lookupsInFlight := lookupsInFlight (rt w);
              adviceInFlight := adviceInFlight (rt w);
              photoInFlight := photoInFlight (rt w);
              console := console (rt w); uncaught := uncaught (rt w) |} |}.
Proof.
  intros Ht. unfold elapse. rewrite Ht. cbn [filter fold_left].
  run_handler. reflexivity.
Qed.

Lemma elapse_pending (dt : N) (w : World) (tm : Timer) :
  timers (rt w) = [tm] ->
  (now (rt w) + dt < timer_due tm)%N ->
  elapse dt w =
  {| app := app w; voice := voice w;
     rt := {| now := N.max (now (rt w)) (now (rt w) + dt);
              nextTimerId := nextTimerId (rt w); timers := [tm];
              nextRequestId := nextRequestId (rt w);
              lookupLog := lookupLog (rt w);
              lookupsInFlight := lookupsInFlight (rt w);
              adviceInFlight := adviceInFlight (rt w);
              photoInFlight := photoInFlight (rt w);
              console := console (rt w); uncaught := uncaught (rt w) |} |}.
Proof.
  intros Ht Hdue. unfold elapse. rewrite Ht. cbn [filter].
  unfold isDue. apply N.leb_gt in Hdue. rewrite Hdue. cbn [negb fold_left].
  run_handler. reflexivity.
Qed.

Lemma elapse_fire (dt : N) (w : World) (tm : Timer) :
  timers (rt w) = [tm] ->
  (timer_due tm <= now (rt w) + dt)%N ->
  elapse dt w =
  {| app := app w; voice := voice w;
     rt := {| now := N.max (N.max (now (rt w)) (timer_due tm)) (now (rt w) + dt);
              nextTimerId := nextTimerId (rt w); timers := [];
              nextRequestId := nextRequestId (rt w) + 1;
              lookupLog := lookupLog (rt w) ++ [requestOf w tm];
              lookupsInFlight := lookupsInFlight (rt w) ++ [requestOf w tm];
              adviceInFlight := adviceInFlight (rt w);
              photoInFlight := photoInFlight (rt w);
              console := console (rt w); uncaught := uncaught (rt w) |} |}.
Proof.
  intros Ht Hdue. unfold elapse. rewrite Ht. cbn [filter].
  unfold isDue. apply N.leb_le in Hdue. rewrite Hdue. cbn [negb fold_left].
  unfold fireTimer, lookupCallback, requestOf.
  run_handler. reflexivity.
Qed.

Lemma lookupSettled_absent (id : N) (p : Settled WeatherData) (w : World) :
  find (fun r => (lookup_id r =? id)%N) (lookupsInFlight (rt w)) = None ->
  lookupSettled id p w = w.
Proof. intros H. unfold lookupSettled. rewrite H. reflexivity. Qed.

Lemma lookupSettled_fulfilled (id : N) (data : WeatherData) (w : World) (r : LookupRequest) :
  find (fun r => (lookup_id r =? id)%N) (lookupsInFlight (rt w)) = Some r ->
  lookupSettled id (Fulfilled data) w =
  {| app := {| language := language (app w); locationText := locationText (app w);
               imageFile := imageFile (app w); result := result (app w);
               isLoading := isLoading (app w); weatherData := Some data;
               isFetchingWeather := false; soilCondition := soilCondition (app w);
               debounceTimeoutRef := debounceTimeoutRef (app w) |};
     voice := voice w;
     rt := {| now := now (rt w); nextTimerId := nextTimerId (rt w);
              timers := timers (rt w);
              nextRequestId := nextRequestId (rt w);
              lookupLog := lookupLog (rt w);
              lookupsInFlight :=
                filter (fun r => negb (lookup_id r =? id)%N) (lookupsInFlight (rt w));
              adviceInFlight := adviceInFlight (rt w);
              photoInFlight := photoInFlight (rt w);
              console := console (rt w); uncaught := uncaught (rt w) |} |}.
Proof.
  intros H. unfold lookupSettled, lookupCallback_resume. rewrite H.
  run_handler. reflexivity.
Qed.

Lemma lookupSettled_rejected (id : N) (e : Thrown) (w : World) (r : LookupRequest) :
  find (fun r => (lookup_id r =? id)%N) (lookupsInFlight (rt w)) = Some r ->
  lookupSettled id (Rejected e) w =
  {| app := {| language := language (app w); locationText := locationText (app w);
               imageFile := imageFile (app w); result := result (app w);
               isLoading := isLoading (app w); weatherData := weatherData (app w);
               isFetchingWeather := false; soilCondition := soilCondition (app w);
               debounceTimeoutRef := debounceTimeoutRef (app w) |};
     voice := voice w;
     rt := {| now := now (rt w); nextTimerId := nextTimerId (rt w);
              timers := timers (rt w);
              nextRequestId := nextRequestId (rt w);
              lookupLog := lookupLog (rt w);
              lookupsInFlight :=
                filter (fun r => negb (lookup_id r =? id)%N) (lookupsInFlight (rt w));
              adviceInFlight := adviceInFlight (rt w);
              photoInFlight := photoInFlight (rt w);
              console := console (rt w) ++ [e]; uncaught := uncaught (rt w) |} |}.
Proof.
  intros H. unfold lookupSettled, lookupCallback_resume. rewrite H.
  run_handler. reflexivity.
Qed.

Lemma find_in_flight (id : N) (l : list LookupRequest) (r : LookupRequest) :
  In r l -> lookup_id r = id ->
  exists r', find (fun r => (lookup_id r =? id)%N) l = Some r'.
Proof.
  intros Hin Hid.
  destruct (find (fun r => (lookup_id r =? id)%N) l) as [r'|] eqn:E.
  - now exists r'.
  - exfalso. apply (find_none _ _ E) in Hin. cbn in Hin.
    apply N.eqb_neq in Hin. contradiction.
Qed.

(** Events outside the resolver leave its part of the world alone. *)
Lemma step_frame (w : World) (ev : Event) :
  isResolverEvent ev = false -> sameResolver w (step w ev).
Proof.
  unfold sameResolver.
  destruct ev; cbn [isResolverEvent step]; intros Hev; try discriminate.
  - run_handler. repeat split.
  - destruct (soilSelectRendered w); [run_handler|]; repeat split.
  - run_handler. repeat split.
  - destruct (adviceButtonEnabled w); [|repeat split].
    unfold handleGetCropAdvice. run_handler.
    destruct (weatherData (app w)) eqn:E; cbn; repeat split; auto.
  - destruct (photoButtonEnabled w); [|repeat split].
    unfold handleImageAnalysis. run_handler.
    destruct (imageFile (app w)) eqn:E; cbn; repeat split; auto.
  - destruct (voiceButtonEnabled w); [|repeat split].
    unfold handleToggleVoice. run_handler.
    destruct (isSessionActive (voice w)) eqn:E; cbn; repeat split; auto.
  - unfold adviceSettled, handleGetCropAdvice_resume.
    destruct (find _ _); [|repeat split].
    destruct p; run_handler; repeat split.
  - unfold photoSettled, handleImageAnalysis_resume.
    destruct (find _ _); [|repeat split].
    run_handler; repeat split.
  - unfold photoSettled, handleImageAnalysis_resume, handleImageAnalysis_finish.
    destruct (find _ _); [|repeat split].
    run_handler; repeat split.
  - unfold photoSettled, handleImageAnalysis_finish.
    destruct (find _ _); [|repeat split].
    destruct p; run_handler; repeat split.
  - unfold voiceConnected.
    destruct (isConnecting (voice w)); [unfold_world; cbn|]; repeat split.
  - unfold voiceFinalResponse, handleFinalVoiceResponse.
    destruct (isSessionActive (voice w)); [run_handler|]; repeat split.
  - unfold voiceFailed. unfold_world; cbn. repeat split.
Qed.

Lemma sameResolver_inv (w w' : World) :
  sameResolver w w' -> ResolverInv w -> ResolverInv w'.
Proof.
  intros (Hl & Hw & Hf & Hr & Hn & Hnt & Ht & Hlog & Hfl & _ & _) [I1 I2 I3 I4 I5 I6 I7].
  constructor; rewrite ?Hl, ?Hw, ?Hf, ?Hr, ?Hn, ?Hnt, ?Ht, ?Hlog, ?Hfl; assumption.
Qed.

Lemma queryChange_inv (v : jsstring) (w : World) :
  ResolverInv w -> ResolverInv (queryChange v w).
Proof.
  intros Hinv. pose proof (clearedTimers_inv Hinv) as Hclr.
  destruct Hinv as [I1 I2 I3 I4 I5 I6 I7].
  destruct (le_lt_dec (List.length (JsString.trim v)) 3) as [Hlen|Hlen].
  - rewrite (queryChange_short v w Hlen), Hclr.
    constructor; cbn; auto; try easy.
  - rewrite (queryChange_long v w Hlen), Hclr.
    constructor; cbn.
    + right. eexists. split; [reflexivity|]. cbn. unfold debounceDelay.
      repeat split; auto. lia.
    + lia.
    + intros tm [<-|[]]. cbn. lia.
    + intros r Hr. specialize (I4 r Hr). lia.
    + intros r tm Hr [<-|[]]. cbn. specialize (I4 r Hr). lia.
    + assumption.
    + intros _. left. discriminate.
Qed.

Lemma elapse_inv (dt : N) (w : World) :
  ResolverInv w -> ResolverInv (elapse dt w).
Proof.
  intros [I1 I2 I3 I4 I5 I6 I7].
  destruct I1 as [Ht | (tm & Ht & Href & Hid & Htext & Hdue)].
  - rewrite (elapse_idle dt w Ht). constructor; cbn; auto; try easy.
    intros Hf. right. destruct (I7 Hf) as [Hne|Hr]; [contradiction|exact Hr].
  - destruct (N.lt_ge_cases (now (rt w) + dt) (timer_due tm)) as [Hlt|Hge].
    + rewrite (elapse_pending dt w Ht Hlt). rewrite Ht in *.
      constructor; cbn; auto.
      right. exists tm. repeat split; auto. lia.
    + rewrite (elapse_fire dt w Ht Hge). rewrite Ht in *.
      constructor; cbn; auto; try easy.
      * intros r Hr. apply in_app_or in Hr as [Hr|[<-|[]]]; [now apply I4|].
        cbn. apply I3. now left.
      * apply incl_app; [now apply incl_appl | apply incl_appr, incl_refl].
      * intros _. right. exists (requestOf w tm). split.
        -- apply in_or_app. right. now left.
        -- split; [exact Href | exact Htext].
Qed.

Lemma lookupSettled_inv (id : N) (p : Settled WeatherData) (w : World) :
  ResolverInv w -> ResolverInv (lookupSettled id p w).
Proof.
  intros [I1 I2 I3 I4 I5 I6 I7].
  destruct (find (fun r => (lookup_id r =? id)%N) (lookupsInFlight (rt w))) as [r|] eqn:E.
  - assert (Hsub : incl (filter (fun r => negb (lookup_id r =? id)%N)
                           (lookupsInFlight (rt w))) (lookupLog (rt w))).
    { intros x Hx. apply I6. apply filter_In in Hx. tauto. }
    destruct p as [data|e];
      [rewrite (lookupSettled_fulfilled id data w E)
      |rewrite (lookupSettled_rejected id e w E)];
      constructor; cbn; auto; discriminate.
  - rewrite (lookupSettled_absent id p w E). now constructor.
Qed.

Lemma step_inv (w : World) (ev : Event) :
  ResolverInv w -> ResolverInv (step w ev).
Proof.
  intros Hinv.
  destruct (isResolverEvent ev) eqn:Hev.
  - destruct ev; try discriminate; cbn [step].
    + unfold locationInput.
      destruct (JsString.eqb value (locationText (app w))); [exact Hinv|].
      now apply queryChange_inv.
    + now apply elapse_inv.
    + now apply lookupSettled_inv.
  - exact (sameResolver_inv (step_frame w ev Hev) Hinv).
Qed.

Lemma run_inv (w : World) (evs : list Event) :
  ResolverInv w -> ResolverInv (run w evs).
Proof.
  revert w. induction evs as [|ev evs IH]; intros w Hinv; cbn; auto.
  apply IH. now apply step_inv.
Qed.

Lemma reachable_inv (w : World) : reachable w -> ResolverInv w.
Proof.
  intros [evs ->]. apply run_inv, mounted_inv.
Qed.

(** Settling a lookup touches neither the timers nor the log nor the query. *)
Lemma lookupSettled_timers (id : N) (p : Settled WeatherData) (w : World) :
  timers (rt (lookupSettled id p w)) = timers (rt w)
  /\ lookupLog (rt (lookupSettled id p w)) = lookupLog (rt w)
  /\ now (rt (lookupSettled id p w)) = now (rt w)
  /\ locationText (app (lookupSettled id p w)) = locationText (app w).
Proof.
  destruct (find (fun r => (lookup_id r =? id)%N) (lookupsInFlight (rt w))) as [r|] eqn:E.
  - destruct p as [data|e];
      [rewrite (lookupSettled_fulfilled id data w E)
      |rewrite (lookupSettled_rejected id e w E)]; cbn; auto.
  - rewrite (lookupSettled_absent id p w E). auto.
Qed.

Lemma step_keeps_timers (w : World) (ev : Event) :
  isLocationInput ev = false -> isElapse ev = false ->
  timers (rt (step w ev)) = timers (rt w)
  /\ lookupLog (rt (step w ev)) = lookupLog (rt w)
  /\ now (rt (step w ev)) = now (rt w)
  /\ locationText (app (step w ev)) = locationText (app w).
Proof.
  intros Hin Hel.
  destruct (isResolverEvent ev) eqn:Hev.
  - destruct ev; try discriminate. cbn [step]. apply lookupSettled_timers.
  - destruct (step_frame w ev Hev) as (Hl & _ & _ & _ & Hn & _ & Ht & Hlog & _).
    auto.
Qed.

Lemma elapsed_cons (ev : Event) (evs : list Event) :
  elapsed (ev :: evs) = (match ev with Elapse dt => dt | _ => 0 end + elapsed evs)%N.
Proof. destruct ev; reflexivity. Qed.

(** With an empty timer table and no change of the query nothing is ever
    requested. *)
Lemma quiet_idle (evs : list Event) :
  forall w, timers (rt w) = [] -> quiet evs ->
    timers (rt (run w evs)) = []
    /\ lookupLog (rt (run w evs)) = lookupLog (rt w)
    /\ locationText (app (run w evs)) = locationText (app w).
Proof.
  induction evs as [|ev evs IH]; intros w Ht Hq; cbn [run fold_left]; auto.
  inversion Hq as [|? ? Hev Hq']; subst.
  fold (run (step w ev) evs).
  destruct (isElapse ev) eqn:Hel.
  - destruct ev; try discriminate. cbn [step].
    destruct (IH (elapse dt w)) as (H1 & H2 & H3); auto.
    + rewrite (elapse_idle dt w Ht). reflexivity.
    + rewrite H1, H2, H3, (elapse_idle dt w Ht). auto.
  - destruct (step_keeps_timers w ev Hev Hel) as (St & Sl & Sn & Sq).
    destruct (IH (step w ev)) as (H1 & H2 & H3); auto; [congruence|].
    rewrite H1, H2, H3. auto.
Qed.

(** With one pending timer and no change of the query, the timer fires when
    its time has come, and only then. *)
Lemma quiet_pending (evs : list Event) :
  forall w tm, timers (rt w) = [tm] -> (now (rt w) < timer_due tm)%N -> quiet evs ->
    let w' := run w evs in
    locationText (app w') = locationText (app w) /\
    (((now (rt w) + elapsed evs < timer_due tm)%N
      /\ timers (rt w') = [tm]
      /\ lookupLog (rt w') = lookupLog (rt w)
      /\ now (rt w') = (now (rt w) + elapsed evs)%N)
     \/
     ((timer_due tm <= now (rt w) + elapsed evs)%N
      /\ timers (rt w') = []
      /\ exists r, lookupLog (rt w') = lookupLog (rt w) ++ [r]
           /\ lookup_locationText r = timer_locationText tm
           /\ lookup_time r = timer_due tm
           /\ lookup_timer r = timer_id tm)).
Proof.
  induction evs as [|ev evs IH]; intros w tm Ht Hnow Hq; cbn zeta.
  - cbn. split; auto. left. rewrite N.add_0_r. auto.
  - inversion Hq as [|? ? Hev Hq']; subst.
    cbn [run fold_left]. fold (run (step w ev) evs). rewrite elapsed_cons.
    destruct (isElapse ev) eqn:Hel.
    + destruct ev; try discriminate. cbn [step].
      destruct (N.lt_ge_cases (now (rt w) + dt) (timer_due tm)) as [Hlt|Hge].
      * pose proof (elapse_pending dt w Ht Hlt) as He.
        destruct (IH (elapse dt w) tm) as (Hq1 & IH'); auto.
        { rewrite He. reflexivity. }
        { rewrite He. cbn. lia. }
        assert (Hn : now (rt (elapse dt w)) = (now (rt w) + dt)%N)
          by (rewrite He; cbn; lia).
        assert (Hl : lookupLog (rt (elapse dt w)) = lookupLog (rt w))
          by (rewrite He; reflexivity).
        assert (Hx : locationText (app (elapse dt w)) = locationText (app w))
          by (rewrite He; reflexivity).
        rewrite Hn, Hl in IH'. rewrite Hq1, Hx. split; auto.
        rewrite N.add_assoc. exact IH'.
      * pose proof (elapse_fire dt w Ht Hge) as He.
        destruct (quiet_idle (evs:=evs) (elapse dt w)) as (H1 & H2 & H3); auto.
        { rewrite He. reflexivity. }
        rewrite H3. split; [rewrite He; reflexivity|].
        right. split; [lia|]. split; [exact H1|].
        exists (requestOf w tm). rewrite H2, He. cbn.
        repeat split; auto. lia.
    + destruct (step_keeps_timers w ev Hev Hel) as (St & Sl & Sn & Sq).
      destruct (IH (step w ev) tm) as (Hq1 & IH'); auto; try congruence.
      rewrite Sn, Sl in IH'. rewrite Hq1, Sq. split; auto.
      assert (E0 : match ev with Elapse dt => dt | _ => 0%N end = 0%N)
        by (destruct ev; try reflexivity; discriminate).
      rewrite E0, N.add_0_l. exact IH'.
Qed.

(** Inside the quiet window that a change of the query opens, no timer
    fires, whatever else happens. *)
Lemma window_silent (T : N) (evs : list Event) :
  forall w, ResolverInv w -> noneDueBefore T w ->
    (T <= now (rt w) + debounceDelay)%N ->
    (now (rt w) + elapsed evs < T)%N ->
    lookupLog (rt (run w evs)) = lookupLog (rt w).
Proof.
  induction evs as [|ev evs IH]; intros w Hinv Hdue HT Hel; [reflexivity|].
  cbn [run fold_left]. fold (run (step w ev) evs).
  rewrite elapsed_cons in Hel.
  assert (Hstep : lookupLog (rt (step w ev)) = lookupLog (rt w)
                  /\ noneDueBefore T (step w ev)
                  /\ now (rt (step w ev))
                     = (now (rt w) + match ev with Elapse dt => dt | _ => 0 end)%N).
  { destruct (isElapse ev) eqn:He; [|destruct (isLocationInput ev) eqn:Hi].
    - destruct ev; try discriminate. cbn [step].
      destruct (inv_timer Hinv) as [Ht | (tm & Ht & _)].
      + rewrite (elapse_idle dt w Ht). unfold noneDueBefore. cbn.
        repeat split; [intros tm []|lia].
      + assert (Hlt : (now (rt w) + dt < timer_due tm)%N).
        { specialize (Hdue tm). rewrite Ht in Hdue.
          specialize (Hdue (or_introl eq_refl)). lia. }
        rewrite (elapse_pending dt w Ht Hlt). unfold noneDueBefore. cbn.
        repeat split; [|lia].
        intros tm' [<-|[]]. apply Hdue. rewrite Ht. now left.
    - destruct ev; try discriminate. cbn [step]. unfold locationInput.
      destruct (JsString.eqb value (locationText (app w))).
      + rewrite N.add_0_r. auto.
      + pose proof (clearedTimers_inv Hinv) as Hclr.
        destruct (le_lt_dec (List.length (JsString.trim value)) 3) as [Hlen|Hlen].
        * rewrite (queryChange_short value w Hlen), Hclr.
          unfold noneDueBefore. cbn. repeat split; [intros tm []|lia].
        * rewrite (queryChange_long value w Hlen), Hclr.
          unfold noneDueBefore. cbn. repeat split; [|lia].
          intros tm [<-|[]]. cbn. lia.
    - destruct (step_keeps_timers w ev Hi He) as (St & Sl & Sn & _).
      unfold noneDueBefore. rewrite St, Sl, Sn.
      repeat split; auto.
      destruct ev; try discriminate; lia. }
  destruct Hstep as (Hl & Hd & Hn).
  rewrite <- Hl. apply IH; auto using step_inv; rewrite Hn; lia.
Qed.

Lemma step_keeps_handles (w : World) (ev : Event) :
  isLocationInput ev = false -> isElapse ev = false ->
  nextTimerId (rt (step w ev)) = nextTimerId (rt w).
Proof.
  intros Hin Hel.
  destruct (isResolverEvent ev) eqn:Hev.
  - destruct ev; try discriminate. cbn [step].
    destruct (find (fun r => (lookup_id r =? id)%N) (lookupsInFlight (rt w))) as [r|] eqn:E.
    + destruct p as [data|e];
        [rewrite (lookupSettled_fulfilled id data w E)
        |rewrite (lookupSettled_rejected id e w E)]; reflexivity.
    + now rewrite (lookupSettled_absent id p w E).
  - now destruct (step_frame w ev Hev) as (_ & _ & _ & _ & _ & Hn & _).
Qed.

(** A spent handle stays spent. *)
Lemma spentHandle_step (k : N) (w : World) (ev : Event) :
  ResolverInv w -> spentHandle k w -> spentHandle k (step w ev).
Proof.
  intros Hinv (Hk & Ht & Hl). unfold spentHandle.
  destruct (isElapse ev) eqn:He; [|destruct (isLocationInput ev) eqn:Hi].
  - destruct ev; try discriminate. cbn [step].
    destruct (inv_timer Hinv) as [Htm | (tm & Htm & _)].
    + rewrite (elapse_idle dt w Htm). cbn. repeat split; auto.
    + destruct (N.lt_ge_cases (now (rt w) + dt) (timer_due tm)) as [Hlt|Hge].
      * rewrite (elapse_pending dt w Htm Hlt). cbn. rewrite Htm in Ht.
        repeat split; auto.
      * rewrite (elapse_fire dt w Htm Hge). cbn. repeat split; auto.
        intros r Hr. apply in_app_or in Hr as [Hr|[<-|[]]]; auto.
        cbn. apply Ht. rewrite Htm. now left.
  - destruct ev; try discriminate. cbn [step]. unfold locationInput.
    destruct (JsString.eqb value (locationText (app w))); [auto|].
    pose proof (clearedTimers_inv Hinv) as Hclr.
    destruct (le_lt_dec (List.length (JsString.trim value)) 3) as [Hlen|Hlen].
    + rewrite (queryChange_short value w Hlen), Hclr. cbn. repeat split; auto.
    + rewrite (queryChange_long value w Hlen), Hclr. cbn.
      repeat split; auto; [lia|].
      intros tm [<-|[]]. cbn. lia.
  - destruct (step_keeps_timers w ev Hi He) as (St & Sl & _ & _).
    rewrite St, Sl, (step_keeps_handles w ev Hi He). auto.
Qed.

Lemma spentHandle_run (k : N) (evs : list Event) :
  forall w, ResolverInv w -> spentHandle k w -> spentHandle k (run w evs).
Proof.
  induction evs as [|ev evs IH]; intros w Hinv Hk; [exact Hk|].
  cbn [run fold_left]. fold (run (step w ev) evs).
  apply IH; [now apply step_inv | now apply spentHandle_step].
Qed.

(** The effect spends the handle that was pending. *)
Lemma queryChange_spends (v : jsstring) (w : World) (tm : Timer) :
  ResolverInv w -> In tm (timers (rt w)) ->
  spentHandle (timer_id tm) (queryChange v w).
Proof.
  intros Hinv Hin. pose proof (clearedTimers_inv Hinv) as Hclr.
  pose proof (inv_timer_fresh Hinv tm Hin) as Hfresh.
  assert (Hlog : forall r, In r (lookupLog (rt w)) -> lookup_timer r <> timer_id tm).
  { intros r Hr E. exact (inv_log_fired Hinv r tm Hr Hin (eq_sym E)). }
  unfold spentHandle.
  destruct (le_lt_dec (List.length (JsString.trim v)) 3) as [Hlen|Hlen].
  - rewrite (queryChange_short v w Hlen), Hclr. cbn. repeat split; auto.
  - rewrite (queryChange_long v w Hlen), Hclr. cbn. repeat split; auto; [lia|].
    intros tm' [<-|[]]. cbn. lia.
Qed.

Lemma sameResolver_settling (w w' : World) :
  sameResolver w w' -> settling w -> settling w'.
Proof.
  intros (_ & Hw & Hf & _ & _ & _ & Ht & _ & Hfl & _) Hs.
  unfold settling. rewrite Hw, Hf, Ht, Hfl. exact Hs.
Qed.

Lemma settling_step (w : World) (ev : Event) :
  ResolverInv w -> isLocationInput ev = false ->
  settling w -> settling (step w ev).
Proof.
  intros Hinv Hi Hs.
  destruct (isResolverEvent ev) eqn:Hev;
    [|exact (sameResolver_settling (step_frame w ev Hev) Hs)].
  destruct ev; try discriminate; cbn [step].
  - (* Elapse *)
    destruct (inv_timer Hinv) as [Htm | (tm & Htm & _)].
    + rewrite (elapse_idle dt w Htm). unfold settling in *. cbn.
      destruct Hs as [(Hfl & _) | (_ & Hr & Hf & Hw)]; [left|right]; auto.
      split; auto. intros []. reflexivity.
    + destruct (N.lt_ge_cases (now (rt w) + dt) (timer_due tm)) as [Hlt|Hge].
      * rewrite (elapse_pending dt w Htm Hlt). unfold settling in *. cbn.
        rewrite Htm in Hs. exact Hs.
      * rewrite (elapse_fire dt w Htm Hge). unfold settling in *. cbn.
        destruct Hs as [(Hfl & Hflag) | (Hnil & _)]; [|congruence].
        right. rewrite Hfl. cbn. rewrite Htm in Hflag.
        destruct Hflag as (Hf & Hw); [discriminate|].
        repeat split; auto. now exists (requestOf w tm).
  - (* LookupSettled *)
    destruct (find (fun r => (lookup_id r =? id)%N) (lookupsInFlight (rt w))) as [r0|] eqn:E.
    + assert (Hgone : timers (rt w) = [] /\
                filter (fun r => negb (lookup_id r =? id)%N) (lookupsInFlight (rt w)) = []).
      { destruct Hs as [(Hfl & _) | (Hnil & (r & Hr) & _)].
        - rewrite Hfl in E. discriminate.
        - split; [exact Hnil|]. rewrite Hr in *. cbn in *.
          destruct (lookup_id r =? id)%N; [reflexivity|discriminate]. }
      destruct Hgone as (Hnil & Hfil).
      destruct p as [data|e];
        [rewrite (lookupSettled_fulfilled id data w E)
        |rewrite (lookupSettled_rejected id e w E)];
        unfold settling; cbn; rewrite Hfil, Hnil; left; split; auto;
        intros []; reflexivity.
    + now rewrite (lookupSettled_absent id p w E).
Qed.

Lemma settling_run (evs : list Event) :
  forall w, ResolverInv w -> quiet evs -> settling w ->
    settling (run w evs).
Proof.
  induction evs as [|ev evs IH]; intros w Hinv Hq Hs; [exact Hs|].
  inversion Hq as [|? ? Hev Hq']; subst.
  cbn [run fold_left]. fold (run (step w ev) evs).
  apply IH; auto using step_inv, settling_step.
Qed.

(** A change of the query with no lookup outstanding starts a single
    resolution. *)
Lemma queryChange_settling (v : jsstring) (w : World) :
  ResolverInv w -> lookupsInFlight (rt w) = [] -> settling (queryChange v w).
Proof.
  intros Hinv Hfl. pose proof (clearedTimers_inv Hinv) as Hclr.
  unfold settling. left.
  destruct (le_lt_dec (List.length (JsString.trim v)) 3) as [Hlen|Hlen].
  - rewrite (queryChange_short v w Hlen), Hclr. cbn. split; auto.
  - rewrite (queryChange_long v w Hlen), Hclr. cbn. auto.
Qed.

Lemma find_singleton (A : Type) (f : A -> bool) (l : list A) (x : A) (n : nat) :
  find f l = Some x -> (List.length l + n = 1)%nat ->
  l = [x] /\ n = 0%nat /\ f x = true.
Proof.
  intros Hfind Hlen.
  destruct l as [|y [|z l]]; cbn in *; try discriminate; try lia.
  destruct (f y) eqn:E; [|discriminate].
  injection Hfind as <-. repeat split; auto.
Qed.

(** The resolver's events leave the one-shot flows alone. *)
Lemma resolver_step_keeps_oneShots (w : World) (ev : Event) :
  ResolverInv w -> isResolverEvent ev = true ->
  adviceInFlight (rt (step w ev)) = adviceInFlight (rt w)
  /\ photoInFlight (rt (step w ev)) = photoInFlight (rt w)
  /\ isLoading (app (step w ev)) = isLoading (app w)
  /\ result (app (step w ev)) = result (app w).
Proof.
  intros Hinv Hev. destruct ev; try discriminate; cbn [step].
  - unfold locationInput.
    destruct (JsString.eqb value (locationText (app w))); [auto|].
    destruct (le_lt_dec (List.length (JsString.trim value)) 3) as [Hlen|Hlen].
    + rewrite (queryChange_short value w Hlen). cbn. auto.
    + rewrite (queryChange_long value w Hlen). cbn. auto.
  - destruct (inv_timer Hinv) as [Htm | (tm & Htm & _)].
    + rewrite (elapse_idle dt w Htm). cbn. auto.
    + destruct (N.lt_ge_cases (now (rt w) + dt) (timer_due tm)) as [Hlt|Hge].
      * rewrite (elapse_pending dt w Htm Hlt). cbn. auto.
      * rewrite (elapse_fire dt w Htm Hge). cbn. auto.
  - destruct (find (fun r => (lookup_id r =? id)%N) (lookupsInFlight (rt w))) as [r|] eqn:E.
    + destruct p as [data|e];
        [rewrite (lookupSettled_fulfilled id data w E)
        |rewrite (lookupSettled_rejected id e w E)]; cbn; auto.
    + rewrite (lookupSettled_absent id p w E). auto.
Qed.

Lemma oneShotInv_step (w : World) (ev : Event) :
  ResolverInv w -> isVoiceFinalResponse ev = false ->
  oneShotInv w -> oneShotInv (step w ev).
Proof.
  intros Hinv Hev Hone.
  destruct (isResolverEvent ev) eqn:Hres.
  { destruct (@resolver_step_keeps_oneShots w ev Hinv Hres) as (Ha & Hp & Hl & _).
    unfold oneShotInv, oneShotsInFlight in *. now rewrite Ha, Hp, Hl. }
  unfold oneShotInv, oneShotsInFlight in *.
  destruct ev; try discriminate; cbn [step].
  - (* LanguageChange *) run_handler. exact Hone.
  - (* SoilChange *) destruct (soilSelectRendered w); [run_handler|]; exact Hone.
  - (* FileSelect *) run_handler. exact Hone.
  - (* ClickAdvice *)
    unfold adviceButtonEnabled, handleGetCropAdvice.
    destruct (weatherData (app w)) as [wd|] eqn:Ewd; [|exact Hone].
    destruct (isLoading (app w)) eqn:El; cbn [negb]; [rewrite El; exact Hone|].
    destruct Hone as [H0|[_ Habs]]; [|discriminate].
    run_handler. rewrite Ewd. cbn. rewrite length_app. cbn. right. split; [lia|reflexivity].
  - (* ClickAnalyze *)
    unfold photoButtonEnabled, handleImageAnalysis.
    destruct (imageFile (app w)) as [f|] eqn:Ef; [|exact Hone].
    destruct (isLoading (app w)) eqn:El; cbn [negb]; [rewrite El; exact Hone|].
    destruct Hone as [H0|[_ Habs]]; [|discriminate].
    run_handler. rewrite Ef. cbn. rewrite length_app. cbn. right. split; [lia|reflexivity].
  - (* ClickVoice *)
    destruct (voiceButtonEnabled w); [|exact Hone].
    unfold handleToggleVoice. run_handler.
    destruct (isSessionActive (voice w)); cbn; [exact Hone|].
    destruct Hone as [H0|[H1 _]]; [left|right]; auto.
  - (* AdviceSettled *)
    unfold adviceSettled, handleGetCropAdvice_resume.
    destruct (find _ _) as [req|] eqn:E; [|exact Hone].
    assert (Hl : adviceInFlight (rt w) = [req] /\ List.length (photoInFlight (rt w)) = 0%nat
                 /\ (advice_id req =? id)%N = true).
    { destruct Hone as [H0|[H1 _]].
      - destruct (adviceInFlight (rt w)); [discriminate|cbn in H0; lia].
      - exact (@find_singleton _ _ _ _ _ E H1). }
    destruct Hl as (Hl & Hp & Hid).
    left. destruct p; run_handler; rewrite Hl; cbn; rewrite Hid; cbn; exact Hp.
  - (* FileReaderLoad *)
    unfold photoSettled, handleImageAnalysis_resume.
    destruct (find _ _) as [job|] eqn:E; [|exact Hone].
    assert (Hl : photoInFlight (rt w) = [job] /\ List.length (adviceInFlight (rt w)) = 0%nat
                 /\ isLoading (app w) = true /\ (photo_id job =? id)%N = true).
    { destruct Hone as [H0|[H1 Hld]].
      - destruct (photoInFlight (rt w)); [discriminate|cbn in H0; lia].
      - rewrite Nat.add_comm in H1.
        destruct (@find_singleton _ _ _ _ _ E H1) as (? & ? & Hf).
        apply andb_prop in Hf. tauto. }
    destruct Hl as (Hl & Ha & Hld & Hid).
    right. run_handler. rewrite Hl. cbn. rewrite Hid. cbn. split; [lia|exact Hld].
  - (* FileReaderError *)
    unfold photoSettled, handleImageAnalysis_resume, handleImageAnalysis_finish.
    destruct (find _ _) as [job|] eqn:E; [|exact Hone].
    assert (Hl : photoInFlight (rt w) = [job] /\ List.length (adviceInFlight (rt w)) = 0%nat
                 /\ (photo_id job =? id)%N = true).
    { destruct Hone as [H0|[H1 Hld]].
      - destruct (photoInFlight (rt w)); [discriminate|cbn in H0; lia].
      - rewrite Nat.add_comm in H1.
        destruct (@find_singleton _ _ _ _ _ E H1) as (? & ? & Hf).
        apply andb_prop in Hf. tauto. }
    destruct Hl as (Hl & Ha & Hid).
    left. run_handler. rewrite Hl. cbn. rewrite Hid. cbn. lia.
  - (* AnalysisSettled *)
    unfold photoSettled, handleImageAnalysis_finish.
    destruct (find _ _) as [job|] eqn:E; [|exact Hone].
    assert (Hl : photoInFlight (rt w) = [job] /\ List.length (adviceInFlight (rt w)) = 0%nat
                 /\ (photo_id job =? id)%N = true).
    { destruct Hone as [H0|[H1 Hld]].
      - destruct (photoInFlight (rt w)); [discriminate|cbn in H0; lia].
      - rewrite Nat.add_comm in H1.
        destruct (@find_singleton _ _ _ _ _ E H1) as (? & ? & Hf).
        apply andb_prop in Hf. tauto. }
    destruct Hl as (Hl & Ha & Hid).
    left. destruct p; run_handler; rewrite Hl; cbn; rewrite Hid; cbn; lia.
  - (* VoiceConnected *)
    unfold voiceConnected. destruct (isConnecting (voice w)); exact Hone.
  - (* VoiceFailed *) exact Hone.
Qed.

Lemma locationInput_changed (v : jsstring) (w : World) :
  v <> locationText (app w) -> step w (LocationInput v) = queryChange v w.
Proof.
  intros Hne. cbn [step]. unfold locationInput, JsString.eqb.
  destruct (JsString.eq_dec v (locationText (app w))); [contradiction|reflexivity].
Qed.

(** ** The resolver *)

(** C3.  A query whose trimmed length is at most 3: right after the change
    the weather record is empty and the fetching flag is down; the change
    makes no request and leaves no timer behind, so that none is made until
    the query changes again.  This holds from every state that satisfies the
    resolver's invariant, whatever record it shows, whether its flag is up
    and whether a timer is pending; every reachable state is one. *)
Theorem short_query_clears (w : World) (v : jsstring) :
  ResolverInv w ->
  (List.length (JsString.trim v) <= 3)%nat ->
  let w' := queryChange v w in
  weatherData (app w') = None
  /\ isFetchingWeather (app w') = false
  /\ lookupLog (rt w') = lookupLog (rt w)
  /\ timers (rt w') = []
  /\ (v <> locationText (app w) -> step w (LocationInput v) = w')
  /\ forall evs, quiet evs -> lookupLog (rt (run w' evs)) = lookupLog (rt w).
Proof.
  intros Hinv Hlen w'.
  assert (Ht : timers (rt w') = []).
  { unfold w'. rewrite (queryChange_short v w Hlen). cbn.
    now apply clearedTimers_inv. }
  assert (Hl : lookupLog (rt w') = lookupLog (rt w)).
  { unfold w'. now rewrite (queryChange_short v w Hlen). }
  repeat split; auto.
  - unfold w'. now rewrite (queryChange_short v w Hlen).
  - unfold w'. now rewrite (queryChange_short v w Hlen).
  - apply locationInput_changed.
  - intros evs Hq. rewrite <- Hl. now apply quiet_idle.
Qed.

(** C4.  A query whose trimmed length exceeds 3: the change raises the
    fetching flag, empties the weather record and schedules one timer; as
    long as the query does not change again, no request is made before 1500
    ms have passed, and from then on exactly one has been made, for that
    query, at 1500 ms after the change.  This holds from every state that satisfies the
    resolver's invariant, whatever record it shows and whether a timer is
    pending; every reachable state is one. *)
Theorem settled_query_one_request (w : World) (v : jsstring) (evs : list Event) :
  ResolverInv w ->
  (3 < List.length (JsString.trim v))%nat ->
  quiet evs ->
  let w1 := queryChange v w in
  let w2 := run w1 evs in
  isFetchingWeather (app w1) = true
  /\ weatherData (app w1) = None
  /\ timers (rt w1) =
       [{| timer_id := nextTimerId (rt w);
           timer_due := now (rt w) + debounceDelay;
           timer_locationText := v |}]
  /\ lookupLog (rt w1) = lookupLog (rt w)
  /\ ((elapsed evs < debounceDelay)%N -> lookupLog (rt w2) = lookupLog (rt w))
  /\ ((debounceDelay <= elapsed evs)%N ->
      exists r, lookupLog (rt w2) = lookupLog (rt w) ++ [r]
        /\ lookup_locationText r = v
        /\ lookup_time r = (now (rt w) + debounceDelay)%N).
Proof.
  intros Hinv Hlen Hq w1 w2.
  pose proof (clearedTimers_inv Hinv) as Hclr.
  pose proof (queryChange_long v w Hlen) as E. rewrite Hclr in E. cbn in E.
  fold w1 in E.
  assert (Ht : timers (rt w1) =
                 [{| timer_id := nextTimerId (rt w);
                     timer_due := now (rt w) + debounceDelay;
                     timer_locationText := v |}]) by (rewrite E; reflexivity).
  assert (Hnow : now (rt w1) = now (rt w)) by (rewrite E; reflexivity).
  assert (Hlog : lookupLog (rt w1) = lookupLog (rt w)) by (rewrite E; reflexivity).
  split; [rewrite E; reflexivity|].
  split; [rewrite E; reflexivity|].
  split; [exact Ht|]. split; [exact Hlog|].
  destruct (@quiet_pending evs w1 _ Ht) as (_ & Hcases); auto.
  { rewrite Hnow. cbn. unfold debounceDelay. lia. }
  fold w2 in Hcases. rewrite Hnow, Hlog in Hcases. cbn in Hcases.
  destruct Hcases as [(Hlt & _ & Hl & _) | (Hge & _ & r & Hl & Hx & Htime & _)].
  - split; [auto|]. intros Hd. lia.
  - split; [intros Hd; lia|]. intros _. exists r. auto.
Qed.

(** C2.  In every reachable state at most one timer is pending.  After a
    change of the query, whatever happens within the next 1500 ms (any
    number of further changes among it) makes no request; and whatever
    follows without a change makes at most one, for the value the query had
    at the end of the burst. *)
Theorem one_timer_one_request (w : World) (v : jsstring) (evs1 evs2 : list Event) :
  reachable w ->
  (elapsed evs1 < debounceDelay)%N ->
  quiet evs2 ->
  let w1 := run (queryChange v w) evs1 in
  let w2 := run w1 evs2 in
  (List.length (timers (rt w)) <= 1)%nat
  /\ (List.length (timers (rt w1)) <= 1)%nat
  /\ lookupLog (rt w1) = lookupLog (rt w)
  /\ exists l, lookupLog (rt w2) = lookupLog (rt w) ++ l
       /\ (List.length l <= 1)%nat
       /\ forall r, In r l -> lookup_locationText r = locationText (app w1).
Proof.
  intros Hr Hel Hq w1 w2. pose proof (reachable_inv Hr) as Hinv.
  pose proof (queryChange_inv v Hinv) as Hinv0.
  pose proof (run_inv evs1 Hinv0) as Hinv1. fold w1 in Hinv1.
  pose proof (clearedTimers_inv Hinv) as Hclr.
  assert (Hone : forall x, ResolverInv x -> (List.length (timers (rt x)) <= 1)%nat).
  { intros x Hx. destruct (inv_timer Hx) as [-> | (tm & -> & _)]; cbn; lia. }
  assert (Hlog : lookupLog (rt w1) = lookupLog (rt w)).
  { unfold w1.
    rewrite (@window_silent (now (rt w) + debounceDelay)%N evs1 (queryChange v w)); auto.
    - destruct (le_lt_dec (List.length (JsString.trim v)) 3) as [Hlen|Hlen];
        [rewrite (queryChange_short v w Hlen)|rewrite (queryChange_long v w Hlen)];
        reflexivity.
    - unfold noneDueBefore.
      destruct (le_lt_dec (List.length (JsString.trim v)) 3) as [Hlen|Hlen];
        [rewrite (queryChange_short v w Hlen)|rewrite (queryChange_long v w Hlen)];
        rewrite Hclr; cbn; [intros tm []|intros tm [<-|[]]; cbn; lia].
    - destruct (le_lt_dec (List.length (JsString.trim v)) 3) as [Hlen|Hlen];
        [rewrite (queryChange_short v w Hlen)|rewrite (queryChange_long v w Hlen)];
        cbn; lia.
    - destruct (le_lt_dec (List.length (JsString.trim v)) 3) as [Hlen|Hlen];
        [rewrite (queryChange_short v w Hlen)|rewrite (queryChange_long v w Hlen)];
        cbn; lia. }
  repeat split; auto.
  destruct (inv_timer Hinv1) as [Ht | (tm & Ht & _ & _ & Htext & Hdue)].
  - exists []. destruct (@quiet_idle evs2 w1 Ht Hq) as (_ & Hl & _).
    fold w2 in Hl. rewrite app_nil_r. repeat split; [congruence|cbn; lia|intros r []].
  - destruct (@quiet_pending evs2 w1 tm Ht Hdue Hq) as (_ & Hcases).
    fold w2 in Hcases.
    destruct Hcases as [(_ & _ & Hl & _) | (_ & _ & r & Hl & Hx & _)].
    + exists []. rewrite app_nil_r. repeat split; [congruence|cbn; lia|intros r []].
    + exists [r]. repeat split; [congruence|cbn; lia|].
      intros r' [<-|[]]. congruence.
Qed.

(** C1, as the code has it.  When the query changes while a timer is
    pending, that timer is cancelled: in every continuation its handle is
    never pending again and no request is ever made by its callback, so no
    response of the superseded resolution can reach the weather record.  (A
    request that was already made when the query changed is not recalled.) *)
Theorem superseded_timer_never_fires (w : World) (tm : Timer) (v : jsstring) (evs : list Event) :
  reachable w ->
  In tm (timers (rt w)) ->
  let w' := run (queryChange v w) evs in
  (forall tm', In tm' (timers (rt w')) -> timer_id tm' <> timer_id tm)
  /\ (forall r, In r (lookupLog (rt w')) -> lookup_timer r <> timer_id tm)
  /\ (forall r, In r (lookupsInFlight (rt w')) -> lookup_timer r <> timer_id tm).
Proof.
  intros Hr Hin w'. pose proof (reachable_inv Hr) as Hinv.
  pose proof (queryChange_inv v Hinv) as Hinv0.
  pose proof (@queryChange_spends v w tm Hinv Hin) as Hsp.
  destruct (@spentHandle_run (timer_id tm) evs _ Hinv0 Hsp) as (_ & Ht & Hl).
  fold w' in Ht, Hl. repeat split; auto.
  intros r Hfl. apply Hl.
  exact (inv_inflight (run_inv evs Hinv0) r Hfl).
Qed.

Lemma soleResolution_in_flight (w : World) (r : LookupRequest) :
  soleResolution w -> In r (lookupsInFlight (rt w)) ->
  isFetchingWeather (app w) = true
  /\ weatherData (app w) = None
  /\ lookup_locationText r = locationText (app w).
Proof.
  intros (w0 & v & evs & Hr & Hfl & Hq & ->) Hin.
  pose proof (queryChange_inv v (reachable_inv Hr)) as Hinv0.
  pose proof (run_inv evs Hinv0) as Hinv.
  pose proof (settling_run Hinv0 Hq (queryChange_settling v (reachable_inv Hr) Hfl)) as Hs.
  destruct Hs as [(Hnil & _) | (Ht & (r0 & Hr0) & Hflag & Hwd)].
  - rewrite Hnil in Hin. destruct Hin.
  - repeat split; auto.
    destruct (inv_fetching Hinv Hflag) as [Hne | (r' & Hin' & _ & Htext)];
      [contradiction|].
    rewrite Hr0 in Hin, Hin'. destruct Hin as [<-|[]]. destruct Hin' as [<-|[]].
    exact Htext.
Qed.

(** C5, as the code has it.  In every reachable state, a raised fetching
    flag means that the resolution of the current query is outstanding:
    either its timer is still pending (the request has not been made yet)
    or its request has been made and has not completed.  In a single
    resolution, where no other lookup is outstanding, the converse holds
    too: the flag is up exactly as long as the timer is pending or the
    request is in flight. *)
Theorem fetching_flag_outstanding (w : World) :
  reachable w ->
  (isFetchingWeather (app w) = true ->
   (exists tm, timers (rt w) = [tm]
      /\ debounceTimeoutRef (app w) = Some (timer_id tm)
      /\ timer_locationText tm = locationText (app w))
   \/
   (exists r, In r (lookupsInFlight (rt w))
      /\ debounceTimeoutRef (app w) = Some (lookup_timer r)
      /\ lookup_locationText r = locationText (app w)))
  /\ (soleResolution w ->
      (isFetchingWeather (app w) = true <->
       timers (rt w) <> [] \/ lookupsInFlight (rt w) <> [])).
Proof.
  intros Hr. pose proof (reachable_inv Hr) as Hinv. split.
  - intros Hflag.
    destruct (inv_fetching Hinv Hflag) as [Hne | Hreq]; [|now right].
    destruct (inv_timer Hinv) as [Ht | (tm & Ht & Href & _ & Htext & _)];
      [contradiction|].
    left. now exists tm.
  - intros (w0 & v & evs & Hr0 & Hfl & Hq & E).
    pose proof (queryChange_inv v (reachable_inv Hr0)) as Hinv0.
    pose proof (settling_run Hinv0 Hq
                  (queryChange_settling v (reachable_inv Hr0) Hfl)) as Hs.
    rewrite <- E in Hs. split.
    + intros Hflag.
      destruct (inv_fetching Hinv Hflag) as [Hne | (r & Hin & _)]; [now left|].
      right. intros Hnil. rewrite Hnil in Hin. destruct Hin.
    + intros [Hne | Hne].
      * destruct Hs as [(_ & Hup) | (Hnil & _)]; [|contradiction].
        now destruct (Hup Hne).
      * destruct Hs as [(Hnil & _) | (_ & _ & Hflag & _)]; [contradiction|].
        exact Hflag.
Qed.

(** C6, as the code has it.  When a lookup succeeds, the weather record is
    exactly the payload and the fetching flag is down afterwards; the flag
    was up before, and the request was for the current query, whenever the
    lookup belongs to a single resolution. *)
Theorem lookup_success_publishes (w : World) (r : LookupRequest) (data : WeatherData) :
  In r (lookupsInFlight (rt w)) ->
  let w' := step w (LookupSettled (lookup_id r) (Fulfilled data)) in
  weatherData (app w') = Some data
  /\ isFetchingWeather (app w') = false
  /\ (soleResolution w ->
      isFetchingWeather (app w) = true
      /\ lookup_locationText r = locationText (app w')).
Proof.
  intros Hin w'.
  destruct (@find_in_flight _ _ _ Hin eq_refl) as (r' & E).
  unfold w'. cbn [step]. rewrite (lookupSettled_fulfilled (lookup_id r) data w E).
  cbn. split; [reflexivity|]. split; [reflexivity|].
  intros Hs. destruct (@soleResolution_in_flight _ _ Hs Hin) as (? & ? & ?). auto.
Qed.

(** C7, as the code has it.  When a lookup fails, the weather record is left
    as it was, the fetching flag is down afterwards, the error goes to the
    console and nowhere else (the result slot is untouched) and no exception
    leaves the callback; the record was empty and the flag up before
    whenever the lookup belongs to a single resolution. *)
Theorem lookup_failure_contained (w : World) (r : LookupRequest) (e : Thrown) :
  In r (lookupsInFlight (rt w)) ->
  let w' := step w (LookupSettled (lookup_id r) (Rejected e)) in
  weatherData (app w') = weatherData (app w)
  /\ isFetchingWeather (app w') = false
  /\ result (app w') = result (app w)
  /\ console (rt w') = console (rt w) ++ [e]
  /\ uncaught (rt w') = uncaught (rt w)
  /\ (forall x, fst (lookupCallback_resume (Rejected e) x) = Normal tt)
  /\ (soleResolution w ->
      isFetchingWeather (app w) = true /\ weatherData (app w') = None).
Proof.
  intros Hin w'.
  destruct (@find_in_flight _ _ _ Hin eq_refl) as (r' & E).
  unfold w'. cbn [step]. rewrite (lookupSettled_rejected (lookup_id r) e w E).
  cbn. repeat (split; [reflexivity|]).
  intros Hs. destruct (@soleResolution_in_flight _ _ Hs Hin) as (? & ? & ?). auto.
Qed.

(** ** The one-shot actions *)

(** C8, as the code has it.  When the advice request, the analysis request
    or the reading of the file fails, the result slot holds the category
    label, a space and a line break, the details label, a colon and a space,
    and then the error's message when the thrown value is an instance of
    Error, the generic-error text in every other case; the loading flag is
    down.  The labels are those of the language that was selected when the
    action was triggered. *)
Theorem one_shot_failure_text (w : World) (error : Thrown) :
  (forall id req,
     find (fun r => (advice_id r =? id)%N) (adviceInFlight (rt w)) = Some req ->
     let w' := step w (AdviceSettled id (Rejected error)) in
     let t := translate (advice_language req) in
     result (app w') =
       Some (t (js "adviceError") ++ js " " ++ [10%N] ++ t (js "details") ++ js ": "
               ++ errorMessageOf (advice_language req) error)
     /\ isLoading (app w') = false)
  /\ (forall id job,
     find (fun j => (photo_id j =? id)%N && Bool.eqb (isReading j) false)
          (photoInFlight (rt w)) = Some job ->
     let w' := step w (AnalysisSettled id (Rejected error)) in
     let t := translate (photo_language job) in
     result (app w') =
       Some (t (js "photoError") ++ js " " ++ [10%N] ++ t (js "details") ++ js ": "
               ++ errorMessageOf (photo_language job) error)
     /\ isLoading (app w') = false)
  /\ (forall id job,
     find (fun j => (photo_id j =? id)%N && Bool.eqb (isReading j) true)
          (photoInFlight (rt w)) = Some job ->
     let w' := step w (FileReaderError id) in
     let t := translate (photo_language job) in
     result (app w') =
       Some (t (js "photoError") ++ js " " ++ [10%N] ++ t (js "details") ++ js ": "
               ++ t (js "unknownError"))
     /\ isLoading (app w') = false)
  /\ (forall lang,
     errorMessageOf lang error =
       match error with
       | ErrorInstance message => message
       | NonError _ => translate lang (js "unknownError")
       end).
Proof.
  split; [|split; [|split]].
  - intros id req Hfind w' t. unfold w'. cbn [step].
    unfold adviceSettled, handleGetCropAdvice_resume. rewrite Hfind.
    run_handler. split; reflexivity.
  - intros id job Hfind w' t. unfold w'. cbn [step].
    unfold photoSettled, handleImageAnalysis_finish. rewrite Hfind.
    run_handler. split; reflexivity.
  - intros id job Hfind w' t. unfold w'. cbn [step].
    unfold photoSettled, handleImageAnalysis_resume, handleImageAnalysis_finish.
    rewrite Hfind. run_handler. split; reflexivity.
  - intros lang. reflexivity.
Qed.

Lemma oneShotInv_run (evs : list Event) :
  forall w, ResolverInv w -> noVoiceResponse evs -> oneShotInv w ->
    oneShotInv (run w evs).
Proof.
  induction evs as [|ev evs IH]; intros w Hinv Hq Hone; [exact Hone|].
  inversion Hq as [|? ? Hev Hq']; subst.
  cbn [run fold_left]. fold (run (step w ev) evs).
  apply IH; auto using step_inv, oneShotInv_step.
Qed.




(** C10.  A handler whose data is missing returns at once: called with an
    empty weather record, [handleGetCropAdvice] completes normally and leaves
    the whole world as it was (no request, result slot and loading flag
    untouched), and so does [handleImageAnalysis] called with no file
    selected. *)
Theorem unmet_precondition_noop (w : World) :
  (weatherData (app w) = None ->
   handleGetCropAdvice w = (Normal tt, w) /\ run_task handleGetCropAdvice w = w)
  /\ (imageFile (app w) = None ->
   handleImageAnalysis w = (Normal tt, w) /\ run_task handleImageAnalysis w = w).
Proof.
  split; intros H.
  - unfold run_task, handleGetCropAdvice, bind, gets, ret. rewrite H. auto.
  - unfold run_task, handleImageAnalysis, bind, gets, ret. rewrite H. auto.
Qed.

(** ** Further properties *)

Lemma displayInv_step (w : World) (ev : Event) :
  ResolverInv w -> displayInv w -> displayInv (step w ev).
Proof.
  intros Hinv (Hd & Ht & Hl & Hu). unfold displayInv.
  destruct (isResolverEvent ev) eqn:Hev.
  - destruct ev; try discriminate; cbn [step].
    + unfold locationInput.
      destruct (JsString.eqb value (locationText (app w))); [repeat split; auto|].
      pose proof (clearedTimers_inv Hinv) as Hclr.
      destruct (le_lt_dec (List.length (JsString.trim value)) 3) as [Hlen|Hlen].
      * rewrite (queryChange_short value w Hlen), Hclr. cbn.
        repeat split; auto. intros tm [].
      * rewrite (queryChange_long value w Hlen), Hclr. cbn.
        repeat split; auto. intros tm [<-|[]]. exact Hlen.
    + destruct (inv_timer Hinv) as [Htm | (tm & Htm & _)].
      * rewrite (elapse_idle dt w Htm). cbn. repeat split; auto. intros tm [].
      * destruct (N.lt_ge_cases (now (rt w) + dt) (timer_due tm)) as [Hlt|Hge].
        -- rewrite (elapse_pending dt w Htm Hlt). cbn. rewrite Htm in Ht.
           repeat split; auto.
        -- rewrite (elapse_fire dt w Htm Hge). cbn. repeat split; auto.
           ++ intros tm' [].
           ++ intros r Hr. apply in_app_or in Hr as [Hr|[<-|[]]]; auto.
              cbn. apply Ht. rewrite Htm. now left.
    + destruct (find (fun r => (lookup_id r =? id)%N) (lookupsInFlight (rt w))) as [r|] eqn:E.
      * destruct p as [data|e];
          [rewrite (lookupSettled_fulfilled id data w E)
          |rewrite (lookupSettled_rejected id e w E)]; cbn;
          repeat split; auto; discriminate.
      * rewrite (lookupSettled_absent id p w E). repeat split; auto.
  - destruct (step_frame w ev Hev)
      as (_ & Hw & Hf & _ & _ & _ & Htm & Hlog & _ & _ & Hunc).
    rewrite Hw, Hf, Htm, Hlog, Hunc. repeat split; auto.
Qed.

Lemma reachable_displayInv (w : World) : reachable w -> displayInv w.
Proof.
  intros Hr. pattern w. apply reachable_ind; auto.
  - rewrite mounted_eq. unfold displayInv. cbn. repeat split; auto; try easy.
  - intros x ev Hx Hd. apply displayInv_step; auto using reachable_inv.
Qed.

(** X1.  The fetching notice and the weather panel are never on screen
    together: in every reachable state a raised fetching flag comes with an
    empty weather record, so that as long as the flag is up the soil select
    is not rendered and the advice button cannot be clicked. *)
Theorem fetching_hides_weather (w : World) :
  reachable w ->
  isFetchingWeather (app w) = true ->
  weatherData (app w) = None
  /\ soilSelectRendered w = false
  /\ adviceButtonEnabled w = false.
Proof.
  intros Hr Hf. destruct (reachable_displayInv Hr) as (Hd & _).
  specialize (Hd Hf). unfold soilSelectRendered, adviceButtonEnabled.
  rewrite Hd. auto.
Qed.

(** X2.  No lookup is ever made for a query at or below the threshold: every
    request in the log of a reachable state carries a text whose trimmed
    length exceeds 3, and so does every pending timer. *)
Theorem lookups_only_above_threshold (w : World) :
  reachable w ->
  Forall (fun r => (3 < List.length (JsString.trim (lookup_locationText r)))%nat)
         (lookupLog (rt w))
  /\ Forall (fun tm => (3 < List.length (JsString.trim (timer_locationText tm)))%nat)
         (timers (rt w)).
Proof.
  intros Hr. destruct (reachable_displayInv Hr) as (_ & Ht & Hl & _).
  split; apply Forall_forall; assumption.
Qed.

(** X3.  No rejection is left unhandled: whatever the lookup, advice,
    file-reading and analysis promises settle with, no exception ever leaves
    a handler of the component. *)
Theorem no_unhandled_rejection (w : World) :
  reachable w -> uncaught (rt w) = [].
Proof.
  intros Hr. now destruct (reachable_displayInv Hr) as (_ & _ & _ & Hu).
Qed.

(** X4.  The weather record is filled only by the response to a lookup
    request that is in flight, and emptied only by a change of the query:
    every other event leaves it as it is. *)
Theorem weather_record_changes (w : World) (ev : Event) :
  reachable w ->
  weatherData (app (step w ev)) = weatherData (app w)
  \/ (weatherData (app (step w ev)) = None /\ isLocationInput ev = true)
  \/ (exists id data r,
        ev = LookupSettled id (Fulfilled data)
        /\ In r (lookupsInFlight (rt w)) /\ lookup_id r = id
        /\ weatherData (app (step w ev)) = Some data).
Proof.
  intros Hr. pose proof (reachable_inv Hr) as Hinv.
  destruct (isResolverEvent ev) eqn:Hev.
  - destruct ev; try discriminate; cbn [step].
    + unfold locationInput.
      destruct (JsString.eqb value (locationText (app w))); [now left|].
      right. left. split; [|reflexivity].
      destruct (le_lt_dec (List.length (JsString.trim value)) 3) as [Hlen|Hlen];
        [rewrite (queryChange_short value w Hlen)
        |rewrite (queryChange_long value w Hlen)]; reflexivity.
    + left. destruct (inv_timer Hinv) as [Htm | (tm & Htm & _)].
      * now rewrite (elapse_idle dt w Htm).
      * destruct (N.lt_ge_cases (now (rt w) + dt) (timer_due tm)) as [Hlt|Hge];
          [rewrite (elapse_pending dt w Htm Hlt)|rewrite (elapse_fire dt w Htm Hge)];
          reflexivity.
    + destruct (find (fun r => (lookup_id r =? id)%N) (lookupsInFlight (rt w))) as [r|] eqn:E.
      * destruct p as [data|e].
        -- right. right. exists id, data, r.
           rewrite (lookupSettled_fulfilled id data w E). cbn.
           apply find_some in E. destruct E as (Hin & Hid).
           apply N.eqb_eq in Hid. auto.
        -- left. now rewrite (lookupSettled_rejected id e w E).
      * left. now rewrite (lookupSettled_absent id p w E).
  - left. now destruct (step_frame w ev Hev) as (_ & Hw & _).
Qed.

Lemma sameResolver_trans (w1 w2 w3 : World) :
  sameResolver w1 w2 -> sameResolver w2 w3 -> sameResolver w1 w3.
Proof.
  unfold sameResolver.
  intros (A1 & A2 & A3 & A4 & A5 & A6 & A7 & A8 & A9 & A10 & A11)
         (B1 & B2 & B3 & B4 & B5 & B6 & B7 & B8 & B9 & B10 & B11).
  repeat split; congruence.
Qed.

(** X5.  Only the location field, the clock and the lookup responses drive
    the resolver.  Changing the language or the soil condition, selecting a
    file, clicking any button, and whatever the advice, analysis and voice
    flows do, in any number and order, neither makes nor cancels a lookup
    and leaves the query, the weather record, the fetching flag, the timers
    and the console as they are. *)
Theorem other_events_leave_resolver (w : World) (evs : list Event) :
  Forall (fun ev => isResolverEvent ev = false) evs ->
  sameResolver w (run w evs).
Proof.
  revert w. induction evs as [|ev evs IH]; intros w Hall.
  - unfold sameResolver. cbn. repeat split.
  - inversion Hall as [|? ? Hev Hall']; subst.
    cbn [run fold_left]. fold (run (step w ev) evs).
    apply (@sameResolver_trans w (step w ev)); [now apply step_frame|now apply IH].
Qed.

Lemma resolver_step_frame (w : World) (ev : Event) :
  ResolverInv w -> isResolverEvent ev = true -> sameActions w (step w ev).
Proof.
  intros Hinv Hev. unfold sameActions.
  destruct ev; try discriminate; cbn [step].
  - unfold locationInput.
    destruct (JsString.eqb value (locationText (app w))); [repeat split|].
    destruct (le_lt_dec (List.length (JsString.trim value)) 3) as [Hlen|Hlen];
      [rewrite (queryChange_short value w Hlen)
      |rewrite (queryChange_long value w Hlen)]; cbn; repeat split.
  - destruct (inv_timer Hinv) as [Htm | (tm & Htm & _)].
    + rewrite (elapse_idle dt w Htm). cbn. repeat split.
    + destruct (N.lt_ge_cases (now (rt w) + dt) (timer_due tm)) as [Hlt|Hge];
        [rewrite (elapse_pending dt w Htm Hlt)|rewrite (elapse_fire dt w Htm Hge)];
        cbn; repeat split.
  - destruct (find (fun r => (lookup_id r =? id)%N) (lookupsInFlight (rt w))) as [r|] eqn:E.
    + destruct p as [data|e];
        [rewrite (lookupSettled_fulfilled id data w E)
        |rewrite (lookupSettled_rejected id e w E)]; cbn; repeat split.
    + rewrite (lookupSettled_absent id p w E). repeat split.
Qed.

(** X6.  The resolver never touches the one-shot flows: typing in the
    location field, the passing of time and the lookup responses, in any
    number and order, leave the result slot, the loading flag, the language,
    the selected file, the soil condition, the advice and analysis
    invocations in flight and the voice session as they are. *)
Theorem resolver_leaves_actions (w : World) (evs : list Event) :
  reachable w ->
  Forall (fun ev => isResolverEvent ev = true) evs ->
  sameActions w (run w evs).
Proof.
  intros Hr. apply reachable_inv in Hr. revert w Hr.
  induction evs as [|ev evs IH]; intros w Hinv Hall.
  - unfold sameActions. cbn. repeat split.
  - inversion Hall as [|? ? Hev Hall']; subst.
    cbn [run fold_left]. fold (run (step w ev) evs).
    pose proof (@resolver_step_frame w ev Hinv Hev) as S1.
    pose proof (IH (step w ev) (@step_inv w ev Hinv) Hall') as S2.
    unfold sameActions in *.
    destruct S1 as (A1 & A2 & A3 & A4 & A5 & A6 & A7 & A8).
    destruct S2 as (B1 & B2 & B3 & B4 & B5 & B6 & B7 & B8).
    repeat split; congruence.
Qed.

Lemma lookup_in_flight_step (w : World) (r : LookupRequest) (ev : Event) :
  ResolverInv w -> In r (lookupsInFlight (rt w)) ->
  settlesLookup (lookup_id r) ev = false ->
  In r (lookupsInFlight (rt (step w ev))).
Proof.
  intros Hinv Hin Hev.
  destruct (isResolverEvent ev) eqn:Hres.
  - destruct ev; try discriminate; cbn [step].
    + unfold locationInput.
      destruct (JsString.eqb value (locationText (app w))); [exact Hin|].
      destruct (le_lt_dec (List.length (JsString.trim value)) 3) as [Hlen|Hlen];
        [rewrite (queryChange_short value w Hlen)
        |rewrite (queryChange_long value w Hlen)]; exact Hin.
    + destruct (inv_timer Hinv) as [Htm | (tm & Htm & _)].
      * now rewrite (elapse_idle dt w Htm).
      * destruct (N.lt_ge_cases (now (rt w) + dt) (timer_due tm)) as [Hlt|Hge];
          [rewrite (elapse_pending dt w Htm Hlt)|rewrite (elapse_fire dt w Htm Hge)];
          cbn; [exact Hin|apply in_or_app; now left].
    + cbn in Hev.
      destruct (find (fun r => (lookup_id r =? id)%N) (lookupsInFlight (rt w))) as [r0|] eqn:E.
      * assert (Hkeep : In r (filter (fun r => negb (lookup_id r =? id)%N)
                                 (lookupsInFlight (rt w)))).
        { apply filter_In. split; [exact Hin|].
          rewrite N.eqb_sym, Hev. reflexivity. }
        destruct p as [data|e];
          [rewrite (lookupSettled_fulfilled id data w E)
          |rewrite (lookupSettled_rejected id e w E)]; exact Hkeep.
      * now rewrite (lookupSettled_absent id p w E).
  - destruct (step_frame w ev Hres) as (_ & _ & _ & _ & _ & _ & _ & _ & Hfl & _).
    now rewrite Hfl.
Qed.

(** X7.  A lookup request, once made, is never cancelled: it stays in
    flight, whatever happens (the query changing or shrinking below the
    threshold included), until its own response arrives. *)
Theorem lookup_stays_in_flight (w : World) (r : LookupRequest) (evs : list Event) :
  reachable w ->
  In r (lookupsInFlight (rt w)) ->
  Forall (fun ev => settlesLookup (lookup_id r) ev = false) evs ->
  In r (lookupsInFlight (rt (run w evs))).
Proof.
  intros Hr. apply reachable_inv in Hr. revert w Hr.
  induction evs as [|ev evs IH]; intros w Hinv Hin Hall; [exact Hin|].
  inversion Hall as [|? ? Hev Hall']; subst.
  cbn [run fold_left]. fold (run (step w ev) evs).
  apply IH; auto using step_inv, lookup_in_flight_step.
Qed.

Lemma trimStart_cons (c : N) (s : jsstring) :
  JsString.trimStart (c :: s) =
    if JsString.isWhiteSpace c then JsString.trimStart s else c :: s.
Proof. reflexivity. Qed.

Lemma trimStart_blank_app (a s : jsstring) :
  forallb JsString.isWhiteSpace a = true ->
  JsString.trimStart (a ++ s) = JsString.trimStart s.
Proof.
  induction a as [|c a IH]; intros Hb; [reflexivity|].
  cbn [forallb] in Hb. apply andb_prop in Hb as (Hc & Ha).
  rewrite <- app_comm_cons, trimStart_cons, Hc. now apply IH.
Qed.

Lemma trimStart_app_blank (s b : jsstring) :
  forallb JsString.isWhiteSpace b = true ->
  JsString.trimStart (s ++ b) =
    match JsString.trimStart s with
    | [] => []
    | c :: s' => (c :: s') ++ b
    end.
Proof.
  intros Hb. induction s as [|c s IH].
  - rewrite app_nil_l, <- (app_nil_r b).
    rewrite (@trimStart_blank_app b [] Hb). reflexivity.
  - rewrite <- app_comm_cons, !trimStart_cons.
    destruct (JsString.isWhiteSpace c); [exact IH|reflexivity].
Qed.

(** [trim] does not see whitespace around a string. *)
Lemma trim_padding (a v b : jsstring) :
  forallb JsString.isWhiteSpace a = true ->
  forallb JsString.isWhiteSpace b = true ->
  JsString.trim (a ++ v ++ b) = JsString.trim v.
Proof.
  intros Ha Hb. unfold JsString.trim, JsString.trimEnd.
  rewrite (@trimStart_blank_app a (v ++ b) Ha), (@trimStart_app_blank v b Hb).
  destruct (JsString.trimStart v) as [|c s']; [reflexivity|].
  rewrite rev_app_distr. rewrite trimStart_blank_app; [reflexivity|].
  rewrite forallb_forall in *. intros x Hx. apply Hb. now apply in_rev.
Qed.

(** X8.  Whitespace around the query does not count towards the threshold,
    but it is sent along: a query padded with whitespace on either side is
    resolved exactly when its core is longer than 3 after trimming, and the
    timer then captures the text as typed, padding included.  In particular
    a query of whitespace only, however long, schedules nothing. *)
Theorem padding_does_not_count (w : World) (a v b : jsstring) :
  reachable w ->
  forallb JsString.isWhiteSpace a = true ->
  forallb JsString.isWhiteSpace b = true ->
  let w' := queryChange (a ++ v ++ b) w in
  ((List.length (JsString.trim v) <= 3)%nat ->
     timers (rt w') = [] /\ isFetchingWeather (app w') = false)
  /\ ((3 < List.length (JsString.trim v))%nat ->
     timers (rt w') =
       [{| timer_id := nextTimerId (rt w);
           timer_due := now (rt w) + debounceDelay;
           timer_locationText := a ++ v ++ b |}]
     /\ isFetchingWeather (app w') = true).
Proof.
  intros Hr Ha Hb w'. pose proof (clearedTimers_inv (reachable_inv Hr)) as Hclr.
  pose proof (@trim_padding a v b Ha Hb) as Htrim.
  split; intros Hlen; rewrite <- Htrim in Hlen; unfold w'.
  - rewrite (queryChange_short _ w Hlen), Hclr. cbn. auto.
  - rewrite (queryChange_long _ w Hlen), Hclr. cbn. auto.
Qed.

Lemma split_cons (sep c : N) (s : jsstring) :
  JsString.split sep (c :: s) =
    if (c =? sep)%N then [] :: JsString.split sep s
    else match JsString.split sep s with
         | [] => [[c]]
         | p :: ps => (c :: p) :: ps
         end.
Proof. reflexivity. Qed.

Lemma split_no_separator (sep : N) (s : jsstring) :
  ~ In sep s -> JsString.split sep s = [s].
Proof.
  induction s as [|c s IH]; intros Hn; [reflexivity|].
  rewrite split_cons.
  destruct (N.eqb_spec c sep) as [->|Hne]; [exfalso; apply Hn; now left|].
  rewrite IH; [reflexivity|]. intros Hin. apply Hn. now right.
Qed.

Lemma split_at_separator (sep : N) (h rest : jsstring) :
  ~ In sep h ->
  JsString.split sep (h ++ sep :: rest) = h :: JsString.split sep rest.
Proof.
  induction h as [|c h IH]; intros Hn.
  - rewrite app_nil_l, split_cons. now rewrite N.eqb_refl.
  - rewrite <- app_comm_cons, split_cons.
    destruct (N.eqb_spec c sep) as [->|Hne]; [exfalso; apply Hn; now left|].
    rewrite IH; [reflexivity|]. intros Hin. apply Hn. now right.
Qed.

(** X9.  What [fileToBase64] resolves with: for a data URL made of a header
    without comma, a comma and a payload without comma (as Base64 text is),
    the payload; for a string with no comma at all, [undefined]. *)
Theorem base64_of_data_url (header payload : jsstring) :
  ~ In 44%N header ->
  ~ In 44%N payload ->
  base64OfDataUrl (header ++ [44%N] ++ payload) = Some payload
  /\ base64OfDataUrl header = None.
Proof.
  intros Hh Hp. unfold base64OfDataUrl. split.
  - change (header ++ [44%N] ++ payload) with (header ++ 44%N :: payload).
    rewrite (@split_at_separator 44%N header payload Hh),
      (@split_no_separator 44%N payload Hp).
    reflexivity.
  - rewrite (@split_no_separator 44%N header Hh). reflexivity.
Qed.

Lemma NoDup_map_filter (Item Key : Type) (key : Item -> Key) (keep : Item -> bool)
    (items : list Item) (Hnd : NoDup (map key items)) :
  NoDup (map key (filter keep items)).
Proof.
  induction items as [|it items IH]; [constructor|].
  cbn in *. inversion Hnd as [|? ? Hfresh Hrest]; subst.
  destruct (keep it); [|now apply IH].
  cbn. constructor; [|now apply IH].
  intros Hin. apply Hfresh. apply in_map_iff in Hin as (other & Hkey & Hin).
  apply in_map_iff. exists other. split; [exact Hkey|].
  apply filter_In in Hin. tauto.
Qed.

Lemma NoDup_map_snoc (A B : Type) (f : A -> B) (l : list A) (x : A) :
  NoDup (map f l) -> ~ In (f x) (map f l) -> NoDup (map f (l ++ [x])).
Proof.
  intros Hnd Hx. rewrite map_app. cbn.
  apply NoDup_app; auto.
  - repeat constructor. intros [].
  - intros y Hy [<-|[]]. contradiction.
Qed.

Lemma fresh_not_in (A : Type) (f : A -> N) (l : list A) (n : N) :
  (forall x, In x l -> (f x < n)%N) -> ~ In n (map f l).
Proof.
  intros Hlt Hin. apply in_map_iff in Hin as (x & Hx & Hin).
  specialize (Hlt x Hin). lia.
Qed.

Lemma idsFresh_step (w : World) (ev : Event) :
  ResolverInv w -> idsFresh w -> idsFresh (step w ev).
Proof.
  intros Hinv (HL & HA & HP & NA & NP). unfold idsFresh.
  destruct ev; cbn [step].
  - (* LanguageChange *) run_handler. repeat split; auto.
  - (* LocationInput *)
    unfold locationInput.
    destruct (JsString.eqb value (locationText (app w))); [repeat split; auto|].
    destruct (le_lt_dec (List.length (JsString.trim value)) 3) as [Hlen|Hlen];
      [rewrite (queryChange_short value w Hlen)
      |rewrite (queryChange_long value w Hlen)]; cbn; repeat split; auto.
  - (* SoilChange *)
    destruct (soilSelectRendered w); [run_handler|]; repeat split; auto.
  - (* FileSelect *) run_handler. repeat split; auto.
  - (* ClickAdvice *)
    destruct (adviceButtonEnabled w); [|repeat split; auto].
    unfold handleGetCropAdvice. run_handler.
    destruct (weatherData (app w)) as [data|]; cbn; [|repeat split; auto].
    repeat split.
    + intros r Hr. specialize (HL r Hr). lia.
    + intros r Hr. apply in_app_or in Hr as [Hr|[<-|[]]]; [specialize (HA r Hr)|cbn]; lia.
    + intros j Hj. specialize (HP j Hj). lia.
    + apply NoDup_map_snoc; auto. cbn. now apply fresh_not_in.
    + exact NP.
  - (* ClickAnalyze *)
    destruct (photoButtonEnabled w); [|repeat split; auto].
    unfold handleImageAnalysis. run_handler.
    destruct (imageFile (app w)) as [f|]; cbn; [|repeat split; auto].
    repeat split.
    + intros r Hr. specialize (HL r Hr). lia.
    + intros r Hr. specialize (HA r Hr). lia.
    + intros j Hj. apply in_app_or in Hj as [Hj|[<-|[]]]; [specialize (HP j Hj)|cbn]; lia.
    + exact NA.
    + apply NoDup_map_snoc; auto. cbn. now apply fresh_not_in.
  - (* ClickVoice *)
    destruct (voiceButtonEnabled w); [|repeat split; auto].
    unfold handleToggleVoice. run_handler.
    destruct (isSessionActive (voice w)); cbn; repeat split; auto.
  - (* Elapse *)
    destruct (inv_timer Hinv) as [Htm | (tm & Htm & _)].
    + rewrite (elapse_idle dt w Htm). cbn. repeat split; auto.
    + destruct (N.lt_ge_cases (now (rt w) + dt) (timer_due tm)) as [Hlt|Hge];
        [rewrite (elapse_pending dt w Htm Hlt)|rewrite (elapse_fire dt w Htm Hge)];
        cbn; repeat split; auto.
      * intros r Hr. apply in_app_or in Hr as [Hr|[<-|[]]]; [specialize (HL r Hr)|cbn]; lia.
      * intros r Hr. specialize (HA r Hr). lia.
      * intros j Hj. specialize (HP j Hj). lia.
  - (* LookupSettled *)
    destruct (find (fun r => (lookup_id r =? id)%N) (lookupsInFlight (rt w))) as [r|] eqn:E.
    + destruct p as [data|e];
        [rewrite (lookupSettled_fulfilled id data w E)
        |rewrite (lookupSettled_rejected id e w E)]; cbn; repeat split; auto;
        intros x Hx; apply filter_In in Hx; apply HL; tauto.
    + rewrite (lookupSettled_absent id p w E). repeat split; auto.
  - (* AdviceSettled *)
    unfold adviceSettled, handleGetCropAdvice_resume.
    destruct (find _ _) as [req|] eqn:E; [|repeat split; auto].
    destruct p; run_handler; repeat split; auto;
      try (intros x Hx; apply filter_In in Hx; apply HA; tauto);
      now apply NoDup_map_filter.
  - (* FileReaderLoad *)
    unfold photoSettled, handleImageAnalysis_resume.
    destruct (find _ _) as [job|] eqn:E; [|repeat split; auto].
    apply find_some in E. destruct E as (Hjob & Hid).
    apply andb_prop in Hid as (Hid & _). apply N.eqb_eq in Hid.
    run_handler. repeat split; auto.
    + intros j Hj. apply in_app_or in Hj as [Hj|[<-|[]]].
      * apply filter_In in Hj. apply HP. tauto.
      * cbn. now apply HP.
    + apply NoDup_map_snoc; [now apply NoDup_map_filter|].
      cbn. intros Hin. apply in_map_iff in Hin as (y & Hy & Hin).
      apply filter_In in Hin as (_ & Hne).
      rewrite Hy, Hid, N.eqb_refl in Hne. discriminate.
  - (* FileReaderError *)
    unfold photoSettled, handleImageAnalysis_resume, handleImageAnalysis_finish.
    destruct (find _ _) as [job|] eqn:E; [|repeat split; auto].
    run_handler; repeat split; auto;
      try (intros x Hx; apply filter_In in Hx; apply HP; tauto);
      now apply NoDup_map_filter.
  - (* AnalysisSettled *)
    unfold photoSettled, handleImageAnalysis_finish.
    destruct (find _ _) as [job|] eqn:E; [|repeat split; auto].
    destruct p; run_handler; repeat split; auto;
      try (intros x Hx; apply filter_In in Hx; apply HP; tauto);
      now apply NoDup_map_filter.
  - (* VoiceConnected *)
    unfold voiceConnected. destruct (isConnecting (voice w)); repeat split; auto.
  - (* VoiceFinalResponse *)
    unfold voiceFinalResponse, handleFinalVoiceResponse.
    destruct (isSessionActive (voice w)); [run_handler|]; repeat split; auto.
  - (* VoiceFailed *) repeat split; auto.
Qed.

Lemma reachable_idsFresh (w : World) : reachable w -> idsFresh w.
Proof.
  intros Hr. pattern w. apply reachable_ind; auto.
  - rewrite mounted_eq. unfold idsFresh. cbn.
    repeat split; try easy; constructor.
  - intros x ev Hx Hd. apply idsFresh_step; auto using reachable_inv.
Qed.

Lemma find_unique_advice (l : list AdviceRequest) (req : AdviceRequest) :
  NoDup (map advice_id l) -> In req l ->
  find (fun r => (advice_id r =? advice_id req)%N) l = Some req.
Proof.
  induction l as [|x l IH]; intros Hnd Hin; [destruct Hin|].
  cbn in Hnd. inversion Hnd as [|? ? Hx Hl]; subst. cbn [find].
  destruct Hin as [->|Hin]; [now rewrite N.eqb_refl|].
  destruct (N.eqb_spec (advice_id x) (advice_id req)) as [E|_]; [|now apply IH].
  exfalso. apply Hx. rewrite E. now apply in_map.
Qed.

Lemma advice_in_flight_step (w : World) (req : AdviceRequest) (ev : Event) :
  ResolverInv w -> In req (adviceInFlight (rt w)) ->
  settlesAdvice (advice_id req) ev = false ->
  In req (adviceInFlight (rt (step w ev))).
Proof.
  intros Hinv Hin Hev.
  destruct (isResolverEvent ev) eqn:Hres.
  { destruct (@resolver_step_frame w ev Hinv Hres) as (_ & _ & _ & _ & _ & Ha & _).
    now rewrite Ha. }
  destruct ev; try discriminate; cbn [step].
  - run_handler. exact Hin.
  - destruct (soilSelectRendered w); [run_handler|]; exact Hin.
  - run_handler. exact Hin.
  - destruct (adviceButtonEnabled w); [|exact Hin].
    unfold handleGetCropAdvice. run_handler.
    destruct (weatherData (app w)); cbn; [apply in_or_app; now left|exact Hin].
  - destruct (photoButtonEnabled w); [|exact Hin].
    unfold handleImageAnalysis. run_handler.
    destruct (imageFile (app w)); cbn; exact Hin.
  - destruct (voiceButtonEnabled w); [|exact Hin].
    unfold handleToggleVoice. run_handler.
    destruct (isSessionActive (voice w)); cbn; exact Hin.
  - cbn in Hev. unfold adviceSettled, handleGetCropAdvice_resume.
    destruct (find _ _) as [r0|]; [|exact Hin].
    assert (Hkeep : In req (filter (fun r => negb (advice_id r =? id)%N)
                              (adviceInFlight (rt w)))).
    { apply filter_In. split; [exact Hin|]. rewrite N.eqb_sym, Hev. reflexivity. }
    destruct p; run_handler; exact Hkeep.
  - unfold photoSettled, handleImageAnalysis_resume.
    destruct (find _ _); [run_handler|]; exact Hin.
  - unfold photoSettled, handleImageAnalysis_resume, handleImageAnalysis_finish.
    destruct (find _ _); [run_handler|]; exact Hin.
  - unfold photoSettled, handleImageAnalysis_finish.
    destruct (find _ _); [|exact Hin]. destruct p; run_handler; exact Hin.
  - unfold voiceConnected. destruct (isConnecting (voice w)); exact Hin.
  - unfold voiceFinalResponse, handleFinalVoiceResponse.
    destruct (isSessionActive (voice w)); [run_handler|]; exact Hin.
  - exact Hin.
Qed.

Lemma advice_in_flight_run (req : AdviceRequest) (evs : list Event) :
  forall w, ResolverInv w -> In req (adviceInFlight (rt w)) ->
    Forall (fun ev => settlesAdvice (advice_id req) ev = false) evs ->
    In req (adviceInFlight (rt (run w evs))).
Proof.
  induction evs as [|ev evs IH]; intros w Hinv Hin Hall; [exact Hin|].
  inversion Hall as [|? ? Hev Hall']; subst.
  cbn [run fold_left]. fold (run (step w ev) evs).
  apply IH; auto using step_inv, advice_in_flight_step.
Qed.

(** X10.  The advice flow from click to answer.  A click on the enabled
    advice button empties the result slot, raises the loading flag and sends
    one request with the language, the query, the weather record and the
    soil condition of that moment.  The request stays in flight whatever
    happens next (the language or the query changing, other flows starting
    or ending); when it settles, the result slot takes the response, or the
    failure text in the language of the click, the loading flag is lowered
    and the request is gone. *)
Theorem advice_flow (w : World) (data : WeatherData) (evs : list Event)
    (p : Settled jsstring) :
  reachable w ->
  weatherData (app w) = Some data ->
  isLoading (app w) = false ->
  Forall (fun ev => settlesAdvice (nextRequestId (rt w)) ev = false) evs ->
  let req := adviceRequestOf w data in
  let w1 := step w ClickAdvice in
  let w2 := run w1 evs in
  let w3 := step w2 (AdviceSettled (advice_id req) p) in
  result (app w1) = None
  /\ isLoading (app w1) = true
  /\ adviceInFlight (rt w1) = adviceInFlight (rt w) ++ [req]
  /\ In req (adviceInFlight (rt w2))
  /\ result (app w3) =
       Some (match p with
             | Fulfilled response => response
             | Rejected error => failureText (language (app w)) (js "adviceError") error
             end)
  /\ isLoading (app w3) = false
  /\ ~ In req (adviceInFlight (rt w3)).
Proof.
  intros Hr Hwd Hld Hall req w1 w2 w3.
  assert (E1 : w1 =
    {| app := {| language := language (app w); locationText := locationText (app w);
                 imageFile := imageFile (app w); result := None;
                 isLoading := true; weatherData := weatherData (app w);
                 isFetchingWeather := isFetchingWeather (app w);
                 soilCondition := soilCondition (app w);
                 debounceTimeoutRef := debounceTimeoutRef (app w) |};
       voice := voice w;
       rt := {| now := now (rt w); nextTimerId := nextTimerId (rt w);
                timers := timers (rt w);
                nextRequestId := nextRequestId (rt w) + 1;
                lookupLog := lookupLog (rt w);
                lookupsInFlight := lookupsInFlight (rt w);
                adviceInFlight := adviceInFlight (rt w) ++ [req];
                photoInFlight := photoInFlight (rt w);
                console := console (rt w); uncaught := uncaught (rt w) |} |}).
  { unfold w1, req, adviceRequestOf. cbn [step].
    unfold adviceButtonEnabled, handleGetCropAdvice. rewrite Hwd, Hld. cbn [negb].
    run_handler. repeat (rewrite Hwd; cbn). reflexivity. }
  assert (Hr1 : reachable w1) by (apply reachable_step; exact Hr).
  assert (Hr2 : reachable w2) by (apply reachable_run; exact Hr1).
  assert (Hin1 : In req (adviceInFlight (rt w1))).
  { rewrite E1. cbn. apply in_or_app. right. now left. }
  assert (Hin2 : In req (adviceInFlight (rt w2))).
  { apply advice_in_flight_run; auto using reachable_inv. }
  destruct (reachable_idsFresh Hr2) as (_ & _ & _ & NA & _).
  pose proof (@find_unique_advice _ req NA Hin2) as Hfind.
  split; [rewrite E1; reflexivity|]. split; [rewrite E1; reflexivity|].
  split; [rewrite E1; reflexivity|]. split; [exact Hin2|].
  unfold w3. cbn [step]. unfold adviceSettled, handleGetCropAdvice_resume.
  rewrite Hfind.
  destruct p as [response|error]; run_handler;
    (split; [reflexivity|]); (split; [reflexivity|]);
    intros Hin; apply filter_In in Hin as (_ & Hne);
    rewrite N.eqb_refl in Hne; discriminate.
Qed.

Lemma find_photo_snoc (l : list PhotoJob) (job : PhotoJob) (id : N) (reading : bool) :
  (forall j, In j l -> (photo_id j < id)%N) ->
  photo_id job = id ->
  isReading job = reading ->
  find (fun j => (photo_id j =? id)%N && Bool.eqb (isReading j) reading)
       (l ++ [job]) = Some job.
Proof.
  intros Hlt Hid Hst. induction l as [|x l IH].
  - cbn. rewrite Hid, N.eqb_refl, Hst, eqb_reflx. reflexivity.
  - assert (Hx : (photo_id x =? id)%N = false).
    { apply N.eqb_neq. specialize (Hlt x (or_introl eq_refl)). lia. }
    rewrite <- app_comm_cons. simpl find. rewrite Hx. cbn [andb]. apply IH.
    intros j Hj. apply Hlt. now right.
Qed.

Lemma filter_photo_snoc (l : list PhotoJob) (job : PhotoJob) (id : N) :
  (forall j, In j l -> (photo_id j < id)%N) ->
  photo_id job = id ->
  filter (fun j => negb (photo_id j =? id)%N) (l ++ [job]) = l.
Proof.
  intros Hlt Hid. induction l as [|x l IH].
  - cbn. now rewrite Hid, N.eqb_refl.
  - assert (Hx : (photo_id x =? id)%N = false).
    { apply N.eqb_neq. specialize (Hlt x (or_introl eq_refl)). lia. }
    rewrite <- app_comm_cons. simpl filter. rewrite Hx. cbn [negb]. f_equal.
    apply IH. intros j Hj. apply Hlt. now right.
Qed.

(** X11.  The analysis flow from click to answer.  A click on the enabled
    analysis button empties the result slot, raises the loading flag and
    starts reading the selected file; when the reader has loaded the data
    URL, one analysis request is sent with the part of the URL after the
    first comma and the language and query of the click; when that request
    settles, the result slot takes the response, or the failure text, the
    loading flag is lowered and the invocation is gone. *)
Theorem analysis_flow (w : World) (file : File) (dataUrl : jsstring)
    (p : Settled jsstring) :
  reachable w ->
  imageFile (app w) = Some file ->
  isLoading (app w) = false ->
  let id := nextRequestId (rt w) in
  let w1 := step w ClickAnalyze in
  let w2 := step w1 (FileReaderLoad id dataUrl) in
  let w3 := step w2 (AnalysisSettled id p) in
  (result (app w1) = None /\ isLoading (app w1) = true
   /\ photoInFlight (rt w1) = photoInFlight (rt w) ++ [photoJobOf w file ReadingFile])
  /\ (result (app w2) = None /\ isLoading (app w2) = true
   /\ photoInFlight (rt w2) =
        photoInFlight (rt w)
          ++ [photoJobOf w file (Analyzing (base64OfDataUrl dataUrl))])
  /\ (result (app w3) =
        Some (match p with
              | Fulfilled response => response
              | Rejected error => failureText (language (app w)) (js "photoError") error
              end)
   /\ isLoading (app w3) = false
   /\ photoInFlight (rt w3) = photoInFlight (rt w)).
Proof.
  intros Hr Hfile Hld id w1 w2 w3.
  destruct (reachable_idsFresh Hr) as (_ & _ & HP & _).
  assert (E1 : w1 =
    {| app := {| language := language (app w); locationText := locationText (app w);
                 imageFile := imageFile (app w); result := None;
                 isLoading := true; weatherData := weatherData (app w);
                 isFetchingWeather := isFetchingWeather (app w);
                 soilCondition := soilCondition (app w);
                 debounceTimeoutRef := debounceTimeoutRef (app w) |};
       voice := voice w;
       rt := {| now := now (rt w); nextTimerId := nextTimerId (rt w);
                timers := timers (rt w);
                nextRequestId := nextRequestId (rt w) + 1;
                lookupLog := lookupLog (rt w);
                lookupsInFlight := lookupsInFlight (rt w);
                adviceInFlight := adviceInFlight (rt w);
                photoInFlight := photoInFlight (rt w) ++ [photoJobOf w file ReadingFile];
                console := console (rt w); uncaught := uncaught (rt w) |} |}).
  { unfold w1, photoJobOf. cbn [step].
    unfold photoButtonEnabled, handleImageAnalysis. rewrite Hfile, Hld. cbn [negb].
    run_handler. repeat (rewrite Hfile; cbn). reflexivity. }
  clearbody w1.
  assert (E2 : w2 =
    {| app := app w1; voice := voice w;
       rt := {| now := now (rt w); nextTimerId := nextTimerId (rt w);
                timers := timers (rt w);
                nextRequestId := nextRequestId (rt w) + 1;
                lookupLog := lookupLog (rt w);
                lookupsInFlight := lookupsInFlight (rt w);
                adviceInFlight := adviceInFlight (rt w);
                photoInFlight :=
                  photoInFlight (rt w)
                    ++ [photoJobOf w file (Analyzing (base64OfDataUrl dataUrl))];
                console := console (rt w); uncaught := uncaught (rt w) |} |}).
  { unfold w2. rewrite E1. cbn [step]. unfold photoSettled. cbn [rt photoInFlight].
    rewrite (@find_photo_snoc (photoInFlight (rt w)) (photoJobOf w file ReadingFile)
               id true HP eq_refl eq_refl).
    rewrite (@filter_photo_snoc (photoInFlight (rt w)) (photoJobOf w file ReadingFile)
               id HP eq_refl).
    unfold handleImageAnalysis_resume, photoJobOf. run_handler. reflexivity. }
  clearbody w2.
  split; [rewrite E1; cbn; auto|].
  split; [rewrite E2, E1; cbn; auto|].
  unfold w3. rewrite E2. cbn [step]. unfold photoSettled. cbn [rt photoInFlight].
  rewrite (@find_photo_snoc (photoInFlight (rt w))
             (photoJobOf w file (Analyzing (base64OfDataUrl dataUrl)))
             id false HP eq_refl eq_refl).
  rewrite (@filter_photo_snoc (photoInFlight (rt w))
             (photoJobOf w file (Analyzing (base64OfDataUrl dataUrl))) id HP eq_refl).
  unfold handleImageAnalysis_finish, photoJobOf.
  destruct p as [response|error]; run_handler; auto.
Qed.

Lemma loadingWithoutOneShot_step (w : World) (ev : Event) :
  ResolverInv w -> isVoiceFinalResponse ev = false ->
  loadingWithoutOneShot w -> loadingWithoutOneShot (step w ev).
Proof.
  intros Hinv Hev (Hld & Ha & Hp). unfold loadingWithoutOneShot.
  destruct (isResolverEvent ev) eqn:Hres.
  { destruct (@resolver_step_frame w ev Hinv Hres) as (_ & _ & _ & B4 & _ & B6 & B7 & _).
    rewrite B4, B6, B7. auto. }
  destruct ev; try discriminate; cbn [step].
  - run_handler. auto.
  - destruct (soilSelectRendered w); [run_handler|]; auto.
  - run_handler. auto.
  - unfold adviceButtonEnabled. rewrite Hld.
    destruct (weatherData (app w)); cbn [negb]; auto.
  - unfold photoButtonEnabled. rewrite Hld.
    destruct (imageFile (app w)); cbn [negb]; auto.
  - destruct (voiceButtonEnabled w); [|auto].
    unfold handleToggleVoice. run_handler.
    destruct (isSessionActive (voice w)); cbn; auto.
  - unfold adviceSettled. rewrite Ha. cbn. auto.
  - unfold photoSettled. rewrite Hp. cbn. auto.
  - unfold photoSettled. rewrite Hp. cbn. auto.
  - unfold photoSettled. rewrite Hp. cbn. auto.
  - unfold voiceConnected. destruct (isConnecting (voice w)); auto.
  - auto.
Qed.

(** X12.  Starting the chatbot empties the result slot, raises the loading
    flag and opens a session with the language and the query of that
    moment.  With no advice or analysis invocation in flight, the flag then
    stays up, and the advice and analysis buttons stay disabled, until the
    session delivers a response: nothing else lowers it, stopping the
    session included. *)
Theorem voice_start_holds_loading (w : World) (evs : list Event) :
  reachable w ->
  voiceButtonEnabled w = true ->
  isSessionActive (voice w) = false ->
  adviceInFlight (rt w) = [] ->
  photoInFlight (rt w) = [] ->
  noVoiceResponse evs ->
  let w1 := step w ClickVoice in
  let w' := run w1 evs in
  result (app w1) = None
  /\ isLoading (app w1) = true
  /\ voice_sessions (voice w1) =
       voice_sessions (voice w) ++ [(language (app w), locationText (app w))]
  /\ isLoading (app w') = true
  /\ adviceButtonEnabled w' = false
  /\ photoButtonEnabled w' = false.
Proof.
  intros Hr Hen Hact Ha Hp Hq w1 w'.
  assert (E1 : result (app w1) = None /\ isLoading (app w1) = true
               /\ voice_sessions (voice w1) =
                    voice_sessions (voice w) ++ [(language (app w), locationText (app w))]
               /\ adviceInFlight (rt w1) = [] /\ photoInFlight (rt w1) = []).
  { unfold w1. cbn [step]. rewrite Hen. unfold handleToggleVoice.
    run_handler. repeat (rewrite Hact; cbn). auto. }
  destruct E1 as (R1 & L1 & V1 & A1 & P1).
  assert (Hinv1 : ResolverInv w1) by (apply step_inv; now apply reachable_inv).
  clearbody w1.
  assert (Hs : loadingWithoutOneShot w').
  { unfold w'. clear w' R1 V1. revert w1 Hinv1 L1 A1 P1.
    induction evs as [|ev evs IH]; intros x Hx L A P.
    - now repeat split.
    - inversion Hq as [|? ? Hev Hq']; subst.
      cbn [run fold_left]. fold (run (step x ev) evs).
      destruct (@loadingWithoutOneShot_step x ev Hx Hev) as (L' & A' & P');
        [now repeat split|].
      apply IH; auto using step_inv. }
  destruct Hs as (L' & _ & _).
  repeat split; auto.
  - unfold adviceButtonEnabled. rewrite L'. now destruct (weatherData (app w')).
  - unfold photoButtonEnabled. rewrite L'. now destruct (imageFile (app w')).
Qed.
End Translations.

(** ** Instances and counterexamples *)

Unset Implicit Arguments.

(** C3 from two states: one that shows the record of a superseded query
    while the timer of the current query is pending, and one whose fetching
    flag is up. *)
Lemma short_query_clears_witness :
  let w := run sampleTranslate mounted recordShownTimerPending in
  let w' := queryChange (js " ab ") w in
  let u := run sampleTranslate mounted [LocationInput (js "Pune")] in
  let u' := queryChange (js "ab") u in
  (weatherData (app w) = Some loam /\ List.length (timers (rt w)) = 1%nat)
  /\ (weatherData (app w') = None
      /\ isFetchingWeather (app w') = false
      /\ lookupLog (rt w') = lookupLog (rt w)
      /\ timers (rt w') = []
      /\ lookupLog (rt (run sampleTranslate w' [Elapse 5000])) = lookupLog (rt w))
  /\ (isFetchingWeather (app u) = true /\ List.length (timers (rt u)) = 1%nat)
  /\ (isFetchingWeather (app u') = false /\ timers (rt u') = []).
Proof.
  destruct (@short_query_clears sampleTranslate
              (run sampleTranslate mounted recordShownTimerPending) (js " ab "))
    as (H1 & H2 & H3 & H4 & _ & H5).
  - apply (@reachable_inv sampleTranslate). eexists. reflexivity.
  - vm_compute. lia.
  - destruct (@short_query_clears sampleTranslate
                (run sampleTranslate mounted [LocationInput (js "Pune")]) (js "ab"))
      as (_ & G2 & _ & G4 & _).
    + apply (@reachable_inv sampleTranslate). eexists. reflexivity.
    + vm_compute. lia.
    + split; [vm_compute; split; reflexivity|].
      split.
      { split; [exact H1|]. split; [exact H2|]. split; [exact H3|].
        split; [exact H4|]. apply (H5 [Elapse 5000]). repeat constructor. }
      split; [vm_compute; split; reflexivity|].
      split; [exact G2|exact G4].
Defined.

(** C4 from a state that shows the record of a superseded query while the
    timer of "Mumbai" is pending: the query becomes "Nagpur", then 1500 ms. *)
Lemma settled_query_one_request_witness :
  let w := run sampleTranslate mounted recordShownTimerPending in
  let w1 := queryChange (js "Nagpur") w in
  (weatherData (app w) = Some loam /\ isFetchingWeather (app w) = false
   /\ List.length (timers (rt w)) = 1%nat)
  /\ isFetchingWeather (app w1) = true
  /\ weatherData (app w1) = None
  /\ timers (rt w1) =
       [{| timer_id := nextTimerId (rt w);
           timer_due := now (rt w) + debounceDelay;
           timer_locationText := js "Nagpur" |}]
  /\ exists r, lookupLog (rt (run sampleTranslate w1 [Elapse 1500]))
               = lookupLog (rt w) ++ [r]
       /\ lookup_locationText r = js "Nagpur"
       /\ lookup_time r = (now (rt w) + debounceDelay)%N.
Proof.
  destruct (@settled_query_one_request sampleTranslate
              (run sampleTranslate mounted recordShownTimerPending)
              (js "Nagpur") [Elapse 1500])
    as (H1 & H2 & H3 & _ & _ & H4).
  - apply (@reachable_inv sampleTranslate). eexists. reflexivity.
  - vm_compute. lia.
  - repeat constructor.
  - split; [vm_compute; repeat split; reflexivity|].
    split; [exact H1|]. split; [exact H2|]. split; [exact H3|].
    apply H4. vm_compute. discriminate.
Defined.

(** C2 on a burst of three changes within 1400 ms. *)
Lemma one_timer_one_request_witness :
  let burst := [Elapse 500; LocationInput (js "Pune1"); Elapse 900;
                LocationInput (js "Mumbai")] in
  let w1 := run sampleTranslate (queryChange (js "Pune") mounted) burst in
  lookupLog (rt w1) = []
  /\ exists l, lookupLog (rt (run sampleTranslate w1 [Elapse 1500])) = [] ++ l
       /\ (List.length l <= 1)%nat
       /\ forall r, In r l -> lookup_locationText r = locationText (app w1).
Proof.
  destruct (@one_timer_one_request sampleTranslate mounted (js "Pune")
              [Elapse 500; LocationInput (js "Pune1"); Elapse 900;
               LocationInput (js "Mumbai")] [Elapse 1500])
    as (_ & _ & H1 & H2).
  - exists []. reflexivity.
  - vm_compute. reflexivity.
  - repeat constructor.
  - split; assumption.
Defined.

(** C1, as the code has it, on the timer of "Pune" cancelled by "Pune1". *)
Lemma superseded_timer_never_fires_witness :
  let w' := run sampleTranslate
              (queryChange (js "Pune1") (run sampleTranslate mounted [LocationInput (js "Pune")]))
              [Elapse 1500; LookupSettled 1 (Fulfilled loam)] in
  Forall (fun tm => timer_id tm <> 1%N) (timers (rt w'))
  /\ Forall (fun r => lookup_timer r <> 1%N) (lookupLog (rt w')).
Proof.
  destruct (@superseded_timer_never_fires sampleTranslate
              (run sampleTranslate mounted [LocationInput (js "Pune")])
              {| timer_id := 1; timer_due := 1500; timer_locationText := js "Pune" |}
              (js "Pune1") [Elapse 1500; LookupSettled 1 (Fulfilled loam)])
    as (H1 & H2 & _).
  - exists [LocationInput (js "Pune")]. reflexivity.
  - vm_compute. left. reflexivity.
  - split; apply Forall_forall; [exact H1|exact H2].
Defined.

(** C1 as stated fails: the request for "Pune1" is in flight when the query
    becomes "Mumbai"; the response for "Mumbai" is published first, then the
    response for "Pune1" arrives and replaces it. *)
Lemma stale_response_overwrites :
  let w := run sampleTranslate mounted
             (overlappingLookups ++ [LookupSettled 2 (Fulfilled clay)]) in
  let stale := {| lookup_id := 1; lookup_timer := 1; lookup_time := 1500;
                  lookup_locationText := js "Pune1" |} in
  locationText (app w) = js "Mumbai"
  /\ weatherData (app w) = Some clay
  /\ lookupsInFlight (rt w) = [stale]
  /\ lookup_locationText stale <> locationText (app w)
  /\ weatherData (app (step sampleTranslate w (LookupSettled 1 (Fulfilled loam)))) = Some loam.
Proof.
  vm_compute. repeat split; try reflexivity. discriminate.
Qed.

(** C5, as the code has it, while the request for "Pune" is in flight. *)
Lemma fetching_flag_outstanding_witness :
  let w := run sampleTranslate mounted [LocationInput (js "Pune"); Elapse 1500] in
  ((exists tm, timers (rt w) = [tm]
      /\ debounceTimeoutRef (app w) = Some (timer_id tm)
      /\ timer_locationText tm = locationText (app w))
   \/
   (exists r, In r (lookupsInFlight (rt w))
      /\ debounceTimeoutRef (app w) = Some (lookup_timer r)
      /\ lookup_locationText r = locationText (app w)))
  /\ (isFetchingWeather (app w) = true <->
      timers (rt w) <> [] \/ lookupsInFlight (rt w) <> []).
Proof.
  destruct (@fetching_flag_outstanding sampleTranslate
              (run sampleTranslate mounted [LocationInput (js "Pune"); Elapse 1500]))
    as (H1 & H2).
  - eexists. reflexivity.
  - split; [apply H1; vm_compute; reflexivity|].
    apply H2. exists mounted, (js "Pune"), [Elapse 1500].
    split; [exists []; reflexivity|].
    split; [reflexivity|]. split; [repeat constructor|].
    vm_compute. reflexivity.
Defined.

(** C5 as stated fails in both directions: right after the change to "Pune1"
    the flag is up although no request was ever made; and once the stale
    response for "Pune1" has arrived, the flag is down although the request
    for the current query "Mumbai" is in flight. *)
Lemma fetching_flag_not_in_flight :
  let w1 := run sampleTranslate mounted [LocationInput (js "Pune1")] in
  let w2 := run sampleTranslate mounted
              (overlappingLookups ++ [LookupSettled 1 (Fulfilled loam)]) in
  (isFetchingWeather (app w1) = true /\ lookupLog (rt w1) = [])
  /\ (isFetchingWeather (app w2) = false
      /\ locationText (app w2) = js "Mumbai"
      /\ lookupsInFlight (rt w2) =
           [{| lookup_id := 2; lookup_timer := 2; lookup_time := 3000;
               lookup_locationText := js "Mumbai" |}]).
Proof.
  vm_compute. repeat split; reflexivity.
Qed.

(** C6, as the code has it, on the payload of the spec: "Pune" settles, its
    request is answered with the loam record. *)
Lemma lookup_success_publishes_witness :
  let w := run sampleTranslate mounted [LocationInput (js "Pune"); Elapse 1500] in
  let w' := step sampleTranslate w (LookupSettled 1 (Fulfilled loam)) in
  weatherData (app w') = Some loam
  /\ isFetchingWeather (app w') = false
  /\ isFetchingWeather (app w) = true.
Proof.
  destruct (lookup_success_publishes sampleTranslate
              (run sampleTranslate mounted [LocationInput (js "Pune"); Elapse 1500])
              {| lookup_id := 1; lookup_timer := 1; lookup_time := 1500;
                 lookup_locationText := js "Pune" |} loam)
    as (H1 & H2 & H3).
  - vm_compute. left. reflexivity.
  - split; [exact H1|]. split; [exact H2|].
    apply H3. exists mounted, (js "Pune"), [Elapse 1500].
    split; [exists []; reflexivity|].
    split; [reflexivity|]. split; [repeat constructor|].
    vm_compute. reflexivity.
Defined.

(** C6 as stated fails: the request for "Pune1" is in flight when the query
    is cut down to "ab", which lowers the flag; the response then arrives,
    is published under the two-letter query, and the flag goes from false to
    false. *)
Lemma lookup_success_flag_already_down :
  let w := run sampleTranslate mounted
             [LocationInput (js "Pune1"); Elapse 1500; LocationInput (js "ab")] in
  let w' := step sampleTranslate w (LookupSettled 1 (Fulfilled loam)) in
  lookupsInFlight (rt w) =
    [{| lookup_id := 1; lookup_timer := 1; lookup_time := 1500;
        lookup_locationText := js "Pune1" |}]
  /\ isFetchingWeather (app w) = false
  /\ isFetchingWeather (app w') = false
  /\ weatherData (app w') = Some loam
  /\ locationText (app w') = js "ab".
Proof.
  vm_compute. repeat split; reflexivity.
Qed.

(** C7, as the code has it: "Pune" settles and its request fails. *)
Lemma lookup_failure_contained_witness :
  let w := run sampleTranslate mounted [LocationInput (js "Pune"); Elapse 1500] in
  let w' := step sampleTranslate w
              (LookupSettled 1 (Rejected (ErrorInstance (js "network")))) in
  weatherData (app w') = None
  /\ isFetchingWeather (app w) = true
  /\ isFetchingWeather (app w') = false
  /\ result (app w') = result (app w)
  /\ console (rt w') = console (rt w) ++ [ErrorInstance (js "network")]
  /\ uncaught (rt w') = uncaught (rt w).
Proof.
  destruct (lookup_failure_contained sampleTranslate
              (run sampleTranslate mounted [LocationInput (js "Pune"); Elapse 1500])
              {| lookup_id := 1; lookup_timer := 1; lookup_time := 1500;
                 lookup_locationText := js "Pune" |}
              (ErrorInstance (js "network")))
    as (_ & H2 & H3 & H4 & H5 & _ & H7).
  - vm_compute. left. reflexivity.
  - destruct H7 as (H8 & H9).
    { exists mounted, (js "Pune"), [Elapse 1500].
      split; [exists []; reflexivity|].
      split; [reflexivity|]. split; [repeat constructor|].
      vm_compute. reflexivity. }
    split; [exact H9|]. split; [exact H8|]. split; [exact H2|].
    split; [exact H3|]. split; [exact H4|exact H5].
Defined.

(** C7 as stated fails: with two lookups overlapping, the stale response
    for "Pune1" has filled the weather record and lowered the flag when the
    request for "Mumbai" fails; the record is not empty afterwards and the
    flag goes from false to false. *)
Lemma lookup_failure_record_not_empty :
  let w := run sampleTranslate mounted
             (overlappingLookups ++ [LookupSettled 1 (Fulfilled loam)]) in
  let w' := step sampleTranslate w
              (LookupSettled 2 (Rejected (ErrorInstance (js "network")))) in
  lookupsInFlight (rt w) =
    [{| lookup_id := 2; lookup_timer := 2; lookup_time := 3000;
        lookup_locationText := js "Mumbai" |}]
  /\ isFetchingWeather (app w) = false
  /\ lookupsInFlight (rt w') = []
  /\ weatherData (app w') = Some loam
  /\ isFetchingWeather (app w') = false.
Proof.
  vm_compute. repeat split; reflexivity.
Qed.

(** C8, as the code has it: an advice request that fails with
    [new Error("quota")]. *)
Lemma one_shot_failure_text_witness :
  let w := run sampleTranslate mounted
             [LocationInput (js "Pune1"); Elapse 1500;
              LookupSettled 1 (Fulfilled loam); ClickAdvice] in
  let w' := step sampleTranslate w
              (AdviceSettled 2 (Rejected (ErrorInstance (js "quota")))) in
  result (app w') =
    Some (js "en[adviceError] " ++ [10%N] ++ js "en[details]: quota")
  /\ isLoading (app w') = false.
Proof.
  destruct (one_shot_failure_text sampleTranslate
              (run sampleTranslate mounted
                 [LocationInput (js "Pune1"); Elapse 1500;
                  LookupSettled 1 (Fulfilled loam); ClickAdvice])
              (ErrorInstance (js "quota"))) as (H & _).
  destruct (H 2%N {| advice_id := 2; advice_language := js "en";
                     advice_locationText := js "Pune1";
                     advice_weatherData := loam;
                     advice_soilCondition := good |}) as (H1 & H2).
  - vm_compute. reflexivity.
  - split; [|exact H2].
    etransitivity; [exact H1|]. vm_compute. reflexivity.
Defined.

(** C8 as stated fails: the analysis request is rejected with a plain object
    [{ message: "quota exceeded" }]; the thrown value has a message, it is
    not an instance of Error, and the result slot shows the generic-error
    text instead of the message. *)
Lemma non_error_message_ignored :
  let thrown := NonError (Some (js "quota exceeded")) in
  let w := run sampleTranslate mounted
             [FileSelect (Some leaf); ClickAnalyze;
              FileReaderLoad 1 (js "data:image/png;base64,iVBORw0KGgo=");
              AnalysisSettled 1 (Rejected thrown)] in
  thrownMessage thrown = Some (js "quota exceeded")
  /\ result (app w) =
       Some (js "en[photoError] " ++ [10%N] ++ js "en[details]: en[unknownError]")
  /\ sampleTranslate (js "en") (js "unknownError") <> js "quota exceeded".
Proof.
  vm_compute. repeat split; try reflexivity. discriminate.
Qed.



(** C10 at the first state: no weather record, no file. *)
Lemma unmet_precondition_noop_witness :
  handleGetCropAdvice mounted = (Normal tt, mounted)
  /\ handleImageAnalysis mounted = (Normal tt, mounted).
Proof.
  destruct (unmet_precondition_noop mounted) as (H1 & H2).
  split; [apply H1|apply H2]; reflexivity.
Defined.

(** X1 right after a change to "Pune". *)
Lemma fetching_hides_weather_witness :
  let w := run sampleTranslate mounted
             [LocationInput (js "Pune1"); Elapse 1500;
              LookupSettled 1 (Fulfilled loam); LocationInput (js "Pune")] in
  weatherData (app w) = None
  /\ soilSelectRendered w = false
  /\ adviceButtonEnabled w = false.
Proof.
  apply (@fetching_hides_weather sampleTranslate).
  - eexists. reflexivity.
  - vm_compute. reflexivity.
Defined.

(** X2 after two resolutions with a short query in between. *)
Lemma lookups_only_above_threshold_witness :
  let w := run sampleTranslate mounted
             (overlappingLookups ++ [LocationInput (js "ab"); Elapse 1500]) in
  Forall (fun r => (3 < List.length (JsString.trim (lookup_locationText r)))%nat)
         (lookupLog (rt w))
  /\ Forall (fun tm => (3 < List.length (JsString.trim (timer_locationText tm)))%nat)
         (timers (rt w)).
Proof.
  apply (@lookups_only_above_threshold sampleTranslate).
  eexists. reflexivity.
Defined.

(** X3 after a lookup and an advice request have both failed. *)
Lemma no_unhandled_rejection_witness :
  uncaught (rt (run sampleTranslate mounted
     [LocationInput (js "Pune1"); Elapse 1500;
      LookupSettled 1 (Rejected (NonError None));
      LocationInput (js "Pune"); Elapse 1500; LookupSettled 2 (Fulfilled loam);
      ClickAdvice; AdviceSettled 3 (Rejected (ErrorInstance (js "quota")))])) = [].
Proof.
  apply (@no_unhandled_rejection sampleTranslate).
  eexists. reflexivity.
Defined.

(** X8 on "  Pune " and on four spaces. *)
Lemma padding_does_not_count_witness :
  timers (rt (queryChange (js "  " ++ js "Pune" ++ js " ") mounted)) =
    [{| timer_id := 1; timer_due := 0 + debounceDelay;
        timer_locationText := js "  " ++ js "Pune" ++ js " " |}]
  /\ timers (rt (queryChange (js "  " ++ [] ++ js "  ") mounted)) = [].
Proof.
  split.
  - apply (@padding_does_not_count sampleTranslate mounted (js "  ") (js "Pune") (js " "));
      [exists []; reflexivity|reflexivity|reflexivity|vm_compute; lia].
  - apply (@padding_does_not_count sampleTranslate mounted (js "  ") [] (js "  "));
      [exists []; reflexivity|reflexivity|reflexivity|vm_compute; lia].
Defined.

(** X9 on a PNG data URL. *)
Lemma base64_of_data_url_witness :
  base64OfDataUrl (js "data:image/png;base64" ++ [44%N] ++ js "iVBORw0KGgo=")
    = Some (js "iVBORw0KGgo=")
  /\ base64OfDataUrl (js "data:image/png;base64") = None.
Proof.
  apply base64_of_data_url.
  - vm_compute. intuition discriminate.
  - vm_compute. intuition discriminate.
Defined.

(** X4 on the response to the request for "Pune". *)
Lemma weather_record_changes_witness :
  let w := run sampleTranslate mounted [LocationInput (js "Pune"); Elapse 1500] in
  let ev := LookupSettled 1 (Fulfilled loam) in
  weatherData (app (step sampleTranslate w ev)) = weatherData (app w)
  \/ (weatherData (app (step sampleTranslate w ev)) = None /\ isLocationInput ev = true)
  \/ (exists id data r,
        ev = LookupSettled id (Fulfilled data)
        /\ In r (lookupsInFlight (rt w)) /\ lookup_id r = id
        /\ weatherData (app (step sampleTranslate w ev)) = Some data).
Proof.
  apply (@weather_record_changes sampleTranslate).
  eexists. reflexivity.
Defined.

(** X5 on a run of clicks and selections while "Pune" is being resolved. *)
Lemma other_events_leave_resolver_witness :
  let w := run sampleTranslate mounted [LocationInput (js "Pune"); Elapse 700] in
  sameResolver w
    (run sampleTranslate w
       [LanguageChange (js "hi"); FileSelect (Some leaf); ClickAnalyze; ClickVoice;
        FileReaderError 1; SoilChange low]).
Proof.
  apply (@other_events_leave_resolver sampleTranslate).
  repeat constructor.
Defined.

(** X6 on two resolutions while an analysis is in flight. *)
Lemma resolver_leaves_actions_witness :
  let w := run sampleTranslate mounted [FileSelect (Some leaf); ClickAnalyze] in
  sameActions w (run sampleTranslate w overlappingLookups).
Proof.
  apply (@resolver_leaves_actions sampleTranslate).
  - eexists. reflexivity.
  - repeat constructor.
Defined.

(** X7: the request for "Pune1" outlives two changes of the query. *)
Lemma lookup_stays_in_flight_witness :
  In {| lookup_id := 1; lookup_timer := 1; lookup_time := 1500;
        lookup_locationText := js "Pune1" |}
     (lookupsInFlight (rt (run sampleTranslate
        (run sampleTranslate mounted [LocationInput (js "Pune1"); Elapse 1500])
        [LocationInput (js "ab"); LocationInput (js "Mumbai"); Elapse 1500;
         LookupSettled 2 (Fulfilled clay)]))).
Proof.
  apply (@lookup_stays_in_flight sampleTranslate).
  - eexists. reflexivity.
  - vm_compute. left. reflexivity.
  - repeat constructor.
Defined.

(** X10: an advice request made in English fails after the language has
    been switched. *)
Lemma advice_flow_witness :
  let w := run sampleTranslate mounted
             [LocationInput (js "Pune1"); Elapse 1500; LookupSettled 1 (Fulfilled loam)] in
  let w3 := step sampleTranslate
              (run sampleTranslate (step sampleTranslate w ClickAdvice)
                 [LanguageChange (js "hi"); LocationInput (js "Mumbai")])
              (AdviceSettled (advice_id (adviceRequestOf w loam))
                 (Rejected (ErrorInstance (js "quota")))) in
  result (app w3) =
    Some (failureText sampleTranslate (language (app w)) (js "adviceError")
            (ErrorInstance (js "quota")))
  /\ isLoading (app w3) = false.
Proof.
  destruct (@advice_flow sampleTranslate
              (run sampleTranslate mounted
                 [LocationInput (js "Pune1"); Elapse 1500;
                  LookupSettled 1 (Fulfilled loam)])
              loam [LanguageChange (js "hi"); LocationInput (js "Mumbai")]
              (Rejected (ErrorInstance (js "quota"))))
    as (_ & _ & _ & _ & H5 & H6 & _).
  - eexists. reflexivity.
  - vm_compute. reflexivity.
  - vm_compute. reflexivity.
  - repeat constructor.
  - split; [exact H5|exact H6].
Defined.

(** X11 on a leaf photo. *)
Lemma analysis_flow_witness :
  let w := run sampleTranslate mounted [FileSelect (Some leaf)] in
  let w3 := step sampleTranslate
              (step sampleTranslate (step sampleTranslate w ClickAnalyze)
                 (FileReaderLoad (nextRequestId (rt w))
                    (js "data:image/png;base64,iVBORw0KGgo=")))
              (AnalysisSettled (nextRequestId (rt w)) (Fulfilled (js "healthy"))) in
  result (app w3) = Some (js "healthy")
  /\ isLoading (app w3) = false
  /\ photoInFlight (rt w3) = photoInFlight (rt w).
Proof.
  destruct (@analysis_flow sampleTranslate
              (run sampleTranslate mounted [FileSelect (Some leaf)]) leaf
              (js "data:image/png;base64,iVBORw0KGgo=") (Fulfilled (js "healthy")))
    as (_ & _ & H3).
  - eexists. reflexivity.
  - vm_compute. reflexivity.
  - vm_compute. reflexivity.
  - exact H3.
Defined.

(** X12: the chatbot is started and stopped again. *)
Lemma voice_start_holds_loading_witness :
  let w' := run sampleTranslate (step sampleTranslate mounted ClickVoice)
              [VoiceConnected; ClickVoice; LanguageChange (js "hi"); Elapse 60000] in
  isLoading (app w') = true
  /\ adviceButtonEnabled w' = false
  /\ photoButtonEnabled w' = false.
Proof.
  destruct (@voice_start_holds_loading sampleTranslate mounted
              [VoiceConnected; ClickVoice; LanguageChange (js "hi"); Elapse 60000])
    as (_ & _ & _ & H4 & H5 & H6).
  - exists []. reflexivity.
  - reflexivity.
  - reflexivity.
  - reflexivity.
  - reflexivity.
  - repeat constructor.
  - split; [exact H4|]. split; [exact H5|exact H6].
Defined.
